(** * token-memory-ttl: the expiring in-memory token store (src/index.ts)

    A shallow embedding of the class [MemoryTokenStore] and of the part of
    the Node.js runtime it talks to (the timer table behind [setTimeout] /
    [clearTimeout] and the readings of [Date.now()]).

    Modelling conventions.
    - JavaScript numbers are modelled by [Z]: timestamps are integer
      milliseconds and lifetimes are integer seconds, the range in which
      the double arithmetic of the source is exact.
    - Every call of [Date.now()] in the source is an explicit argument of
      the embedded function (named as the source names the local that
      receives it).  Two calls inside one operation take two arguments, so
      the clock may advance while an operation runs.
    - A JavaScript [Map] keeps its entries in insertion order; it is
      modelled by [JsMap.t], an association list with the update-in-place /
      append-at-end discipline of [Map.prototype.set].
    - A [NodeJS.Timeout] object is a handle (a [nat]) into the runtime's
      table of armed timers, a [gmap].  The closure handed to [setTimeout]
      captures only [key], so an armed timer stores that key.
    - Each public method runs to completion before the next one starts
      (callers await every call); timer callbacks run between methods.
    - What the runtime promises is stated where a theorem needs it, never
      built into the methods: that the clock does not run backwards is a
      hypothesis [now <= now'] on the readings, and that a timer fires no
      earlier than its delay asks for is the test [due].
    - The length of a token counts the characters of the Rocq string (the
      source counts UTF-16 code units); only [getStats] looks at it. *)

From Stdlib Require Import ZArith Lia DecimalString DecimalPos DecimalZ.
From stdpp Require Import base option list gmap strings fin_maps.

Local Open Scope Z_scope.

(** ** JavaScript [Map<string, V>] *)

Module JsMap.

Definition t (V : Type) : Type := list (string * V).

Definition empty {V : Type} : t V := [].

Fixpoint get {V : Type} (k : string) (m : t V) : option V :=
  match m with
  | [] => None
  | (k', v) :: m' => if decide (k' = k) then Some v else get k m'
  end.

Definition has {V : Type} (k : string) (m : t V) : bool :=
  match get k m with Some _ => true | None => false end.

(** [Map.prototype.set]: an existing key keeps its position, a new key
    goes to the end. *)
Fixpoint set {V : Type} (k : string) (v : V) (m : t V) : t V :=
  match m with
  | [] => [(k, v)]
  | (k', v') :: m' =>
      if decide (k' = k) then (k, v) :: m' else (k', v') :: set k v m'
  end.

(** [Map.prototype.delete] (its boolean result is [has k m]). *)
Fixpoint delete {V : Type} (k : string) (m : t V) : t V :=
  match m with
  | [] => []
  | (k', v') :: m' =>
      if decide (k' = k) then delete k m' else (k', v') :: delete k m'
  end.

Definition size {V : Type} (m : t V) : Z := Z.of_nat (length m).

Definition entries {V : Type} (m : t V) : list (string * V) := m.

Definition values {V : Type} (m : t V) : list V := m.*2.

Definition key_list {V : Type} (m : t V) : list string := m.*1.

(** The set of keys, for stating domain equalities. *)
Definition dom {V : Type} (m : t V) : gset string := list_to_set (key_list m).

End JsMap.

(** ** The store *)

Module MemoryTokenStore.

(** [TokenStoreOptions]: every field is optional. *)
Record TokenStoreOptions : Type := mkTokenStoreOptions {
  opt_maxSize : option Z;
  opt_defaultTtl : option Z;
  opt_debug : option bool
}.

(** [Required<TokenStoreOptions>], the type of [this.options]. *)
Record RequiredOptions : Type := mkRequiredOptions {
  maxSize : Z;
  defaultTtl : Z;
  debug : bool
}.

Record TokenRecord : Type := mkTokenRecord {
  token : string;
  expiresAt : Z;
  createdAt : Z
}.

(** [TokenStats]; its field [size] is [stat_size] here. *)
Record TokenStats : Type := mkTokenStats {
  stat_size : Z;
  pendingCleanups : Z;
  memoryUsage : Z
}.

(** The lines the methods write with [console.log] when [debug] is on. *)
Inductive LogLine : Type :=
| LogSet (key : string) (ttl : Z)
| LogRetrieved (key : string)
| LogDeleted (key : string)
| LogUpdatedTtl (key : string) (ttl : Z)
| LogCleared.

(** The only exception the class throws. *)
Inductive Error : Type :=
| SizeLimitExceeded (limit : Z).

(** An armed one-shot timer of the runtime: the key captured by its
    callback, the delay the runtime uses, the clock reading at which it
    was armed, and whether it still keeps the process alive. *)
Record Timeout : Type := mkTimeout {
  cb_key : string;
  delay : Z;
  armed_at : Z;
  has_ref : bool
}.

Definition handle : Type := nat.

(** The object state ([map], [timers], [options]) together with the
    runtime state the methods act on ([loop], [next_handle], [console]). *)
Record Store : Type := mkStore {
  map : JsMap.t TokenRecord;
  timers : JsMap.t handle;
  options : RequiredOptions;
  loop : gmap handle Timeout;
  next_handle : handle;
  console : list LogLine
}.

Definition with_map (f : JsMap.t TokenRecord -> JsMap.t TokenRecord) (w : Store) : Store :=
  mkStore (f (map w)) (timers w) (options w) (loop w) (next_handle w) (console w).

Definition with_timers (f : JsMap.t handle -> JsMap.t handle) (w : Store) : Store :=
  mkStore (map w) (f (timers w)) (options w) (loop w) (next_handle w) (console w).

Definition with_loop (f : gmap handle Timeout -> gmap handle Timeout) (w : Store) : Store :=
  mkStore (map w) (timers w) (options w) (f (loop w)) (next_handle w) (console w).

Definition console_log (l : LogLine) (w : Store) : Store :=
  mkStore (map w) (timers w) (options w) (loop w) (next_handle w) (console w ++ [l]).

Definition log_if (b : bool) (l : LogLine) (w : Store) : Store :=
  if b then console_log l w else w.

(** *** JavaScript operators used by the class *)

(** [x || d] on an optional number: [undefined], [0] and [NaN] are falsy. *)
Definition or_number (x : option Z) (d : Z) : Z :=
  match x with
  | Some 0 => d
  | Some n => n
  | None => d
  end.

Definition or_boolean (x : option bool) (d : bool) : bool :=
  match x with
  | Some true => true
  | _ => d
  end.

(** [x ?? d]: only [undefined] / [null] select the default. *)
Definition nullish (x : option Z) (d : Z) : Z :=
  match x with
  | Some n => n
  | None => d
  end.

Definition MAX_SAFE_INTEGER : Z := 9007199254740991.

(** [Math.ceil(a / b)] for integers [a] and [b > 0]. *)
Definition ceil_div (a b : Z) : Z := - ((- a) / b).

(** *** The runtime's timers *)

Definition MAX_TIMEOUT_MS : Z := 0x7fffffff.

(** Node.js replaces a delay outside [1 .. 2^31-1] by 1 ms; this is the
    overflow the comment above [scheduleExpiry] describes. *)
Definition node_delay (d : Z) : Z :=
  if (1 <=? d) && (d <=? MAX_TIMEOUT_MS) then d else 1.

Definition setTimeout (key : string) (d : Z) (now : Z) (w : Store) : handle * Store :=
  let t := next_handle w in
  (t, mkStore (map w) (timers w) (options w)
        (<[t := mkTimeout key (node_delay d) now true]> (loop w))
        (S t) (console w)).

Definition clearTimeout (t : handle) (w : Store) : Store :=
  with_loop (base.delete t) w.

Definition unref (t : handle) (w : Store) : Store :=
  with_loop (base.alter (fun tm => mkTimeout (cb_key tm) (delay tm) (armed_at tm) false) t) w.

(** *** constructor *)

Definition new (o : TokenStoreOptions) : Store :=
  mkStore JsMap.empty JsMap.empty
    (mkRequiredOptions
       (or_number (opt_maxSize o) MAX_SAFE_INTEGER)
       (or_number (opt_defaultTtl o) 3600)
       (or_boolean (opt_debug o) false))
    ∅ 0%nat [].

Definition no_options : TokenStoreOptions := mkTokenStoreOptions None None None.

(** *** scheduleExpiry *)

Definition scheduleExpiry (key : string) (expiresAt : Z) (now : Z) (w : Store) : Store :=
  let w :=
    match JsMap.get key (timers w) with
    | Some existing => clearTimeout existing w
    | None => w
    end in
  let remaining := expiresAt - now in
  if remaining <=? 0 then
    with_timers (JsMap.delete key) (with_map (JsMap.delete key) w)
  else
    let delay := Z.min remaining MAX_TIMEOUT_MS in
    let '(t, w) := setTimeout key delay now w in
    let w := unref t w in
    with_timers (JsMap.set key t) w.

(** The closure passed to [setTimeout] by [scheduleExpiry key _]:
    [now2] is its own clock reading, [now] the one of the nested
    [scheduleExpiry]. *)
Definition on_timeout (key : string) (now2 now : Z) (w : Store) : Store :=
  match JsMap.get key (map w) with
  | None => with_timers (JsMap.delete key) w
  | Some rec =>
      if expiresAt rec <=? now2 then
        with_timers (JsMap.delete key) (with_map (JsMap.delete key) w)
      else
        scheduleExpiry key (expiresAt rec) now w
  end.

(** The runtime fires the armed timer [t]: it leaves the timer table
    (one-shot) and its callback runs.  [None] when [t] is not armed. *)
Definition fire (t : handle) (now2 now : Z) (w : Store) : option Store :=
  match loop w !! t with
  | None => None
  | Some tm => Some (on_timeout (cb_key tm) now2 now (clearTimeout t w))
  end.

(** The runtime's promise about an armed timer: its callback does not run
    before [delay] milliseconds have passed since it was armed. *)
Definition due (tm : Timeout) (now2 : Z) : bool := armed_at tm + delay tm <=? now2.

(** *** Public methods *)

Inductive Completion (A : Type) : Type :=
| Return (a : A) (w : Store)
| Throw (e : Error) (w : Store).
Arguments Return {A} a w.
Arguments Throw {A} e w.

Definition set (key token : string) (ttlSeconds : option Z) (now now' : Z)
    (w : Store) : Completion unit :=
  let ttl := nullish ttlSeconds (defaultTtl (options w)) in
  let expiresAt := now + ttl * 1000 in
  if negb (JsMap.has key (map w)) && (maxSize (options w) <=? JsMap.size (map w)) then
    Throw (SizeLimitExceeded (maxSize (options w))) w
  else
    let record := mkTokenRecord token expiresAt now in
    let w := with_map (JsMap.set key record) w in
    let w := scheduleExpiry key expiresAt now' w in
    let w := log_if (debug (options w)) (LogSet key ttl) w in
    Return tt w.

Definition delete (key : string) (w : Store) : bool * Store :=
  let existed := JsMap.has key (map w) in
  let w := with_map (JsMap.delete key) w in
  let w :=
    match JsMap.get key (timers w) with
    | Some timer => with_timers (JsMap.delete key) (clearTimeout timer w)
    | None => w
    end in
  let w := log_if (debug (options w) && existed) (LogDeleted key) w in
  (existed, w).

Definition get (key : string) (now : Z) (w : Store) : option string * Store :=
  match JsMap.get key (map w) with
  | None => (None, w)
  | Some record =>
      if expiresAt record <=? now then (None, (delete key w).2)
      else (Some (token record), log_if (debug (options w)) (LogRetrieved key) w)
  end.

Definition has (key : string) (now : Z) (w : Store) : bool * Store :=
  match JsMap.get key (map w) with
  | None => (false, w)
  | Some record =>
      if expiresAt record <=? now then (false, (delete key w).2)
      else (true, w)
  end.

(** The result [Omit<TokenRecord, 'token'>] is the pair
    [(expiresAt, createdAt)]. *)
Definition getMetadata (key : string) (now : Z) (w : Store) : option (Z * Z) * Store :=
  match JsMap.get key (map w) with
  | None => (None, w)
  | Some record =>
      if expiresAt record <=? now then (None, (delete key w).2)
      else (Some (expiresAt record, createdAt record), w)
  end.

Definition getTtl (key : string) (now : Z) (w : Store) : option Z * Store :=
  match JsMap.get key (map w) with
  | None => (None, w)
  | Some record =>
      let remaining := Z.max 0 (expiresAt record - now) in
      if remaining =? 0 then (None, (delete key w).2)
      else (Some (ceil_div remaining 1000), w)
  end.

Definition updateTtl (key : string) (ttlSeconds : Z) (now now' : Z)
    (w : Store) : bool * Store :=
  match JsMap.get key (map w) with
  | None => (false, w)
  | Some record =>
      let newExpiresAt := now + ttlSeconds * 1000 in
      let updatedRecord := mkTokenRecord (token record) newExpiresAt (createdAt record) in
      let w := with_map (JsMap.set key updatedRecord) w in
      let w := scheduleExpiry key newExpiresAt now' w in
      let w := log_if (debug (options w)) (LogUpdatedTtl key ttlSeconds) w in
      (true, w)
  end.

Definition clear (w : Store) : Store :=
  let w := fold_left (fun w timer => clearTimeout timer w) (JsMap.values (timers w)) w in
  let w := with_map (fun _ => JsMap.empty) w in
  let w := with_timers (fun _ => JsMap.empty) w in
  log_if (debug (options w)) LogCleared w.

(** One turn of the loop of [keys] on the entry [(key, record)]. *)
Definition keys_step (now : Z) (acc : list string * Store) (e : string * TokenRecord)
    : list string * Store :=
  let '(validKeys, w) := acc in
  let '(key, record) := e in
  if now <? expiresAt record then (validKeys ++ [key], w)
  else (validKeys, (delete key w).2).

(** The loop only deletes the entry it is visiting, so the live iterator
    of [this.map.entries()] visits exactly the entries present at the
    start. *)
Definition keys (now : Z) (w : Store) : list string * Store :=
  fold_left (keys_step now) (JsMap.entries (map w)) ([], w).

Definition getStats (w : Store) : TokenStats :=
  let records := JsMap.values (map w) in
  let estimatedBytes :=
    fold_left (fun acc record => acc + Z.of_nat (String.length (token record)) * 2 + 32)
      records 0 in
  mkTokenStats (JsMap.size (map w)) (JsMap.size (timers w)) estimatedBytes.

End MemoryTokenStore.

(** ** Runs of the store and its invariant *)

Import MemoryTokenStore.

(** What can happen to a store: a call of a public method, or the runtime
    firing a timer.  Each carries the clock readings it observes. *)
Inductive Op : Type :=
| OpSet (key token : string) (ttlSeconds : option Z) (now now' : Z)
| OpGet (key : string) (now : Z)
| OpDelete (key : string)
| OpHas (key : string) (now : Z)
| OpGetMetadata (key : string) (now : Z)
| OpGetTtl (key : string) (now : Z)
| OpUpdateTtl (key : string) (ttlSeconds : Z) (now now' : Z)
| OpClear
| OpKeys (now : Z)
| OpGetStats
| OpFire (t : handle) (now2 now : Z).

(** The store after the operation (a thrown [set] leaves the state it
    threw in; firing a handle that is not armed is no event at all). *)
Definition exec (o : Op) (w : Store) : Store :=
  match o with
  | OpSet key token ttlSeconds now now' =>
      match set key token ttlSeconds now now' w with
      | Return _ w' => w'
      | Throw _ w' => w'
      end
  | OpGet key now => (get key now w).2
  | OpDelete key => (delete key w).2
  | OpHas key now => (has key now w).2
  | OpGetMetadata key now => (getMetadata key now w).2
  | OpGetTtl key now => (getTtl key now w).2
  | OpUpdateTtl key ttlSeconds now now' => (updateTtl key ttlSeconds now now' w).2
  | OpClear => clear w
  | OpKeys now => (keys now w).2
  | OpGetStats => w
  | OpFire t now2 now => default w (fire t now2 now w)
  end.

Definition run (ops : list Op) (w : Store) : Store :=
  fold_left (fun w o => exec o w) ops w.

(** The consistency of the two mappings and the timer table. *)
Record Inv (w : Store) : Prop := mkInv {
  inv_dom : forall k,
    is_Some (JsMap.get k (map w)) <-> is_Some (JsMap.get k (timers w));
  inv_live : forall k h,
    JsMap.get k (timers w) = Some h ->
    exists tm, loop w !! h = Some tm /\ cb_key tm = k;
  inv_owned : forall h tm,
    loop w !! h = Some tm -> JsMap.get (cb_key tm) (timers w) = Some h;
  inv_fresh : forall h, is_Some (loop w !! h) -> (h < next_handle w)%nat;
  inv_nodup_map : NoDup (JsMap.key_list (map w));
  inv_nodup_timers : NoDup (JsMap.key_list (timers w))
}.

(** The state in the middle of an operation on [k]: everything is
    consistent except that [k] may have a record without a handle, or a
    handle that is no longer armed. *)
Record InvBut (k : string) (w : Store) : Prop := mkInvBut {
  but_dom : forall k', k' <> k ->
    (is_Some (JsMap.get k' (map w)) <-> is_Some (JsMap.get k' (timers w)));
  but_live : forall k' h, k' <> k ->
    JsMap.get k' (timers w) = Some h ->
    exists tm, loop w !! h = Some tm /\ cb_key tm = k';
  but_owned : forall h tm,
    loop w !! h = Some tm -> JsMap.get (cb_key tm) (timers w) = Some h;
  but_self : forall h tm,
    JsMap.get k (timers w) = Some h -> loop w !! h = Some tm -> cb_key tm = k;
  but_fresh : forall h, is_Some (loop w !! h) -> (h < next_handle w)%nat;
  but_nodup_map : NoDup (JsMap.key_list (map w));
  but_nodup_timers : NoDup (JsMap.key_list (timers w))
}.

(** [InvBut k] with no armed timer left for [k]: the state in which the
    callback of [k]'s timer starts, and the state of [scheduleExpiry]
    after it has cancelled the existing handle. *)
Definition Quiet (k : string) (w : Store) : Prop :=
  InvBut k w /\ forall h tm, loop w !! h = Some tm -> cb_key tm <> k.

(** [scheduleExpiry]'s first statement. *)
Definition cancel_existing (key : string) (w : Store) : Store :=
  match JsMap.get key (timers w) with
  | Some existing => clearTimeout existing w
  | None => w
  end.

(** The chain of timer segments of one key: the runtime fires the handle
    registered for [k] once per pair of clock readings, each time no
    earlier than the timer is [due] and with a clock that does not run
    backwards inside the callback.  [None] when a firing is impossible:
    no handle is registered for [k], it is not armed, or the readings break
    the runtime's promise. *)
Fixpoint fire_chain (k : string) (evs : list (Z * Z)) (w : Store) : option Store :=
  match evs with
  | [] => Some w
  | (now2, now) :: evs' =>
      match JsMap.get k (timers w) with
      | None => None
      | Some t =>
          match loop w !! t with
          | None => None
          | Some tm =>
              if due tm now2 && (now2 <=? now) then
                match fire t now2 now w with
                | Some w' => fire_chain k evs' w'
                | None => None
                end
              else None
          end
      end
  end.

(** The runtime fires armed timers one after the other, at any clock
    readings at all (also earlier than their delay asks for: this is what
    an overflowing delay would cause).  [None] when a handle is not armed. *)
Fixpoint fire_all (fires : list (handle * Z * Z)) (w : Store) : option Store :=
  match fires with
  | [] => Some w
  | (t, now2, now) :: fires' =>
      match fire t now2 now w with
      | Some w' => fire_all fires' w'
      | None => None
      end
  end.

(** Every clock reading of the firings lies before [deadline]. *)
Definition before (deadline : Z) (fires : list (handle * Z * Z)) : Prop :=
  Forall (fun f => f.1.2 < deadline /\ f.2 < deadline) fires.

(** [k] is gone from [w']: no record, no handle, and the handle [ot] it
    had before is no longer armed. *)
Definition Cleaned (k : string) (ot : option handle) (w' : Store) : Prop :=
  JsMap.get k (map w') = None /\
  JsMap.get k (timers w') = None /\
  forall t, ot = Some t -> loop w' !! t = None.

(** [w] is the state right after an insert or an extend of [k] with
    lifetime [ttl] seconds, issued in [w0] at the clock readings [now]
    (the method's) and [now'] ([scheduleExpiry]'s). *)
Definition starts_lifetime (k : string) (ttl now now' : Z) (w0 w : Store) : Prop :=
  (exists token ttlSeconds,
      nullish ttlSeconds (defaultTtl (options w0)) = ttl /\
      set k token ttlSeconds now now' w0 = Return tt w)
  \/ updateTtl k ttl now now' w0 = (true, w).

(** [k] has a record, and its registered handle is an armed timer of [k]
    whose delay is the segment [scheduleExpiry] computes. *)
Definition Armed (k : string) (rec : TokenRecord) (tm : Timeout) (w : Store) : Prop :=
  JsMap.get k (map w) = Some rec /\
  (exists t, JsMap.get k (timers w) = Some t /\ loop w !! t = Some tm) /\
  cb_key tm = k /\
  0 < expiresAt rec - armed_at tm /\
  delay tm = Z.min (expiresAt rec - armed_at tm) MAX_TIMEOUT_MS.

(** ** Concrete stores used to exercise the theorems *)

(** An empty store built with default options. *)
Definition store0 : Store := new no_options.

(** A store of capacity 1 that already holds the key a. *)
Definition full_store : Store :=
  exec (OpSet "a" "va" (Some 60) 0 0) (new (mkTokenStoreOptions (Some 1) None None)).

(** The default store after [set k v 60] at time 1000. *)
Definition store_k60 : Store := exec (OpSet "k" "v" (Some 60) 1000 1000) store0.

(** The default store after [set k v 1] at time 1000. *)
Definition store_k1 : Store := exec (OpSet "k" "v" (Some 1) 1000 1000) store0.

(** The default store after a 30-day [set] at time 1000. *)
Definition store_30d : Store := exec (OpSet "k" "v" (Some (30 * 24 * 3600)) 1000 1000) store0.

(** ** Notions for the properties beyond the claims *)

(** An armed timer that does not keep the process alive and is aimed at
    the record of its key: its delay is the segment [scheduleExpiry]
    computes from that record's [expiresAt]. *)
Definition Aimed (w : Store) (tm : Timeout) : Prop :=
  has_ref tm = false /\
  exists rec,
    JsMap.get (cb_key tm) (map w) = Some rec /\
    0 < expiresAt rec - armed_at tm /\
    delay tm = Z.min (expiresAt rec - armed_at tm) MAX_TIMEOUT_MS.

Definition Timely (w : Store) : Prop :=
  forall t tm, loop w !! t = Some tm -> Aimed w tm.

(** The number of characters of all stored tokens. *)
Definition token_chars (m : JsMap.t TokenRecord) : Z :=
  Z.of_nat (sum_list_with (fun r => String.length (token r)) (JsMap.values m)).

(** The key has a record that is alive at [now]. *)
Definition alive (key : string) (now : Z) (w : Store) : Prop :=
  exists rec, JsMap.get key (map w) = Some rec /\ now < expiresAt rec.


(** What a read of [key] at [now] leaves: the state itself, unless the
    key has an expired record, and then what [delete] leaves. *)
Definition after_read (key : string) (now : Z) (w : Store) : Store :=
  match JsMap.get key (map w) with
  | Some rec => if expiresAt rec <=? now then (delete key w).2 else w
  | None => w
  end.

(** ** The rate limiter of examples/usage.ts, a caller of the store *)

Module RateLimiter.
Section builtins.

(** JavaScript's [parseInt] and [Number.prototype.toString].  A number is
    [Some n] for the integer [n] and [None] for [NaN]; [requestsPerMinute]
    is taken to be an integer.  The two builtins are variables: the
    theorems state what they need of them, on the safe integers, where
    [count + 1] is exact. *)
Variable parseInt : string -> option Z.
Variable toString : option Z -> string.

Record RateLimiter : Type := mkRateLimiter {
  store : Store;
  requestsPerMinute : Z
}.

(** [constructor(private requestsPerMinute = 60)]. *)
Definition new (requestsPerMinute : option Z) : RateLimiter :=
  mkRateLimiter
    (MemoryTokenStore.new (mkTokenStoreOptions (Some 50000) (Some 60) None))
    (nullish requestsPerMinute 60).

(** The template [`rate:${clientId}:${Math.floor(Date.now() / 60000)}`]. *)
Definition window_key (clientId : string) (now : Z) : string :=
  "rate:" +:+ clientId +:+ ":" +:+ toString (Some (now / 60000)).

(** [current ? parseInt(current) : 0]: null and the empty string are
    falsy. *)
Definition read_count (current : option string) : option Z :=
  match current with
  | Some s => if decide (s = "") then Some 0 else parseInt s
  | None => Some 0
  end.

(** [count >= n]; a comparison with [NaN] is false. *)
Definition at_least (count : option Z) (n : Z) : bool :=
  match count with
  | Some c => n <=? c
  | None => false
  end.

(** [now0] is the clock reading of the key, [now1] the one of
    [store.get], [now2] and [now3] the ones of [store.set]. *)
Definition checkLimit (clientId : string) (now0 now1 now2 now3 : Z) (rl : RateLimiter)
    : Completion bool :=
  let key := window_key clientId now0 in
  let current := get key now1 (store rl) in
  let count := read_count current.1 in
  if at_least count (requestsPerMinute rl) then Return false current.2
  else
    match set key (toString (option_map (fun c => c + 1) count)) (Some 60) now2 now3 current.2 with
    | Return _ w => Return true w
    | Throw e w => Throw e w
    end.

(** [Math.max(0, this.requestsPerMinute - count)]. *)
Definition getRemainingRequests (clientId : string) (now0 now1 : Z) (rl : RateLimiter)
    : option Z * Store :=
  let key := window_key clientId now0 in
  let current := get key now1 (store rl) in
  let count := read_count current.1 in
  (option_map (fun c => Z.max 0 (requestsPerMinute rl - c)) count, current.2).

(** A request: the client and the four clock readings its [checkLimit]
    observes. *)
Record Call : Type := mkCall {
  client : string;
  at0 : Z; at1 : Z; at2 : Z; at3 : Z
}.

(** Serving requests one after the other.  Each result is the client with
    [Some b] when [checkLimit] returned [b] and [None] when it threw. *)
Fixpoint serve (calls : list Call) (rl : RateLimiter)
    : list (string * option bool) * RateLimiter :=
  match calls with
  | [] => ([], rl)
  | c :: calls' =>
      let '(r, w) :=
        match checkLimit (client c) (at0 c) (at1 c) (at2 c) (at3 c) rl with
        | Return b w => (Some b, w)
        | Throw _ w => (None, w)
        end in
      let '(rs, rl') := serve calls' (mkRateLimiter w (requestsPerMinute rl)) in
      ((client c, r) :: rs, rl')
  end.

(** The number of requests of [clientId] that were allowed. *)
Definition allowed (clientId : string) (results : list (string * option bool)) : Z :=
  Z.of_nat (length (filter (fun r => r = (clientId, Some true)) results)).

(** All clock readings of the request lie in the minute [W]. *)
Definition in_window (W : Z) (c : Call) : Prop :=
  Forall (fun r => W * 60000 <= r < (W + 1) * 60000) [at0 c; at1 c; at2 c; at3 c].

(** The record of the key [K] counts [n] allowed requests of the minute
    [W]. *)
Definition Tally (K : string) (rpm W n : Z) (w : Store) : Prop :=
  match JsMap.get K (map w) with
  | None => n = 0
  | Some rec =>
      token rec = toString (Some n) /\ 1 <= n <= rpm /\ (W + 1) * 60000 <= expiresAt rec
  end.

End builtins.

(** One pair of functions with the behaviour the theorems ask of the two
    builtins: decimal printing and parsing of integers.  They agree with
    JavaScript on the decimal numerals of safe integers and stand for the
    builtins in the examples only. *)
Definition toString10 (x : option Z) : string :=
  match x with
  | Some n => NilZero.string_of_int (Z.to_int n)
  | None => "NaN"
  end.

Definition parseInt10 (s : string) : option Z :=
  option_map Z.of_int (NilZero.int_of_string s).

End RateLimiter.


(** ** Facts about [JsMap] *)

Module JsMapFacts.
Section facts.
Context {V : Type}.
Implicit Types (m : JsMap.t V) (k : string) (v : V).

Lemma get_set m k v k' :
  JsMap.get k' (JsMap.set k v m) = if decide (k = k') then Some v else JsMap.get k' m.
Proof.
  induction m as [|[k0 v0] m IH]; simpl.
  - repeat case_decide; congruence.
  - destruct (decide (k0 = k)) as [->|Hne]; simpl.
    + repeat case_decide; congruence.
    + rewrite IH. repeat case_decide; congruence.
Qed.

Lemma get_set_eq m k v : JsMap.get k (JsMap.set k v m) = Some v.
Proof. rewrite get_set. by rewrite decide_True. Qed.

Lemma get_set_ne m k v k' : k ≠ k' -> JsMap.get k' (JsMap.set k v m) = JsMap.get k' m.
Proof. intros. rewrite get_set. by rewrite decide_False. Qed.

Lemma get_delete m k k' :
  JsMap.get k' (JsMap.delete k m) = if decide (k = k') then None else JsMap.get k' m.
Proof.
  induction m as [|[k0 v0] m IH]; simpl.
  - by case_decide.
  - destruct (decide (k0 = k)) as [->|Hne]; simpl.
    + rewrite IH. repeat case_decide; congruence.
    + rewrite IH. repeat case_decide; congruence.
Qed.

Lemma get_delete_eq m k : JsMap.get k (JsMap.delete k m) = None.
Proof. rewrite get_delete. by rewrite decide_True. Qed.

Lemma get_delete_ne m k k' : k ≠ k' -> JsMap.get k' (JsMap.delete k m) = JsMap.get k' m.
Proof. intros. rewrite get_delete. by rewrite decide_False. Qed.

Lemma get_empty k : JsMap.get k (@JsMap.empty V) = None.
Proof. reflexivity. Qed.

Lemma has_true m k : JsMap.has k m = true <-> is_Some (JsMap.get k m).
Proof.
  unfold JsMap.has. destruct (JsMap.get k m); split; intros H; try done.
Qed.

Lemma has_false m k : JsMap.has k m = false <-> JsMap.get k m = None.
Proof. unfold JsMap.has. by destruct (JsMap.get k m). Qed.

Lemma get_Some_elem m k v : JsMap.get k m = Some v -> (k, v) ∈ JsMap.entries m.
Proof.
  unfold JsMap.entries. induction m as [|[k0 v0] m IH]; simpl; [done|].
  case_decide as Hk.
  - intros [= ->]. subst. apply list_elem_of_here.
  - intros H. apply list_elem_of_further. by apply IH.
Qed.

Lemma get_None_keys m k : JsMap.get k m = None <-> k ∉ JsMap.key_list m.
Proof.
  unfold JsMap.key_list. induction m as [|[k0 v0] m IH]; simpl.
  - split; [intros _; apply not_elem_of_nil | done].
  - rewrite not_elem_of_cons. case_decide as Hk.
    + split; [done | intros [Hne _]; congruence].
    + rewrite IH. split; [intros H; split; [congruence | done] | by intros [_ H]].
Qed.

Lemma elem_of_dom m k : k ∈ JsMap.dom m <-> is_Some (JsMap.get k m).
Proof.
  unfold JsMap.dom. rewrite elem_of_list_to_set.
  destruct (JsMap.get k m) as [v|] eqn:E.
  - split; [by eexists | intros _].
    destruct (decide (k ∈ JsMap.key_list m)) as [|Hn]; [done|].
    apply get_None_keys in Hn. congruence.
  - apply get_None_keys in E. split; [done | by intros [? ?]].
Qed.

Lemma key_list_set_subseteq m k v k' :
  k' ∈ JsMap.key_list (JsMap.set k v m) -> k' = k \/ k' ∈ JsMap.key_list m.
Proof.
  intros H. destruct (decide (k' = k)) as [|Hne]; [by left | right].
  destruct (decide (k' ∈ JsMap.key_list m)) as [|Hn]; [done | exfalso].
  apply get_None_keys in Hn.
  assert (JsMap.get k' (JsMap.set k v m) = None) as Hs by (rewrite get_set_ne; done).
  by apply get_None_keys in Hs.
Qed.

Lemma NoDup_set m k v : NoDup (JsMap.key_list m) -> NoDup (JsMap.key_list (JsMap.set k v m)).
Proof.
  unfold JsMap.key_list. induction m as [|[k0 v0] m IH]; simpl; intros Hnd.
  - apply NoDup_singleton.
  - apply NoDup_cons in Hnd as [Hn Hnd]. case_decide as Hk; simpl.
    + subst. by apply NoDup_cons.
    + apply NoDup_cons. split; [|by apply IH].
      intros Hin. apply key_list_set_subseteq in Hin as [?|?]; [congruence | done].
Qed.

Lemma NoDup_delete m k : NoDup (JsMap.key_list m) -> NoDup (JsMap.key_list (JsMap.delete k m)).
Proof.
  unfold JsMap.key_list. induction m as [|[k0 v0] m IH]; simpl; intros Hnd; [done|].
  apply NoDup_cons in Hnd as [Hn Hnd]. case_decide as Hk; simpl; [by apply IH|].
  apply NoDup_cons. split; [|by apply IH].
  intros Hin. apply Hn. apply get_None_keys in Hn.
  destruct (decide (k0 ∈ (JsMap.delete k m).*1)) as [Hd|Hd]; [|done].
  assert (JsMap.get k0 (JsMap.delete k m) = None) as Hs
    by (rewrite get_delete_ne; done).
  by apply get_None_keys in Hs.
Qed.

(** A key absent from the map: [set] appends one entry; a present key:
    the entry count is unchanged. *)
Lemma size_set m k v :
  JsMap.size (JsMap.set k v m) =
    if JsMap.has k m then JsMap.size m else JsMap.size m + 1.
Proof.
  unfold JsMap.size, JsMap.has. induction m as [|[k0 v0] m IH]; simpl; [done|].
  case_decide as Hk; simpl; [done|].
  destruct (JsMap.get k m); lia.
Qed.

Lemma delete_absent m k : JsMap.get k m = None -> JsMap.delete k m = m.
Proof.
  induction m as [|[k0 v0] m IH]; simpl; [done|].
  case_decide; [done|]. intros Hk. by rewrite IH.
Qed.

Lemma get_Some_values m k v : JsMap.get k m = Some v -> v ∈ JsMap.values m.
Proof.
  intros Hk. apply get_Some_elem in Hk. unfold JsMap.values, JsMap.entries in *.
  apply list_elem_of_fmap. by exists (k, v).
Qed.

Lemma elem_get_NoDup m k v :
  NoDup (JsMap.key_list m) -> (k, v) ∈ JsMap.entries m -> JsMap.get k m = Some v.
Proof.
  unfold JsMap.key_list, JsMap.entries.
  induction m as [|[k0 v0] m IH]; simpl; intros Hnd Hin.
  - by apply elem_of_nil in Hin.
  - apply NoDup_cons in Hnd as [Hn Hnd]. apply elem_of_cons in Hin as [[= -> ->]|Hin].
    + by rewrite decide_True.
    + case_decide as Hk; [|by apply IH]. subst. exfalso. apply Hn.
      apply list_elem_of_fmap. by exists (k, v).
Qed.

End facts.
End JsMapFacts.

(** ** The invariant is kept by [scheduleExpiry] and by timer callbacks *)

Section invariant.
Import JsMapFacts.
Implicit Types (w : Store) (k key : string) (h t : handle).

Lemma Inv_new o : Inv (new o).
Proof.
  split; simpl.
  - done.
  - done.
  - intros h tm Hh. by rewrite lookup_empty in Hh.
  - intros h [tm Hh]. by rewrite lookup_empty in Hh.
  - apply NoDup_nil_2.
  - apply NoDup_nil_2.
Qed.

Lemma Inv_console_log l w : Inv w -> Inv (console_log l w).
Proof. intros []. by split. Qed.

Lemma Inv_log_if b l w : Inv w -> Inv (log_if b l w).
Proof. destruct b; simpl; [apply Inv_console_log | done]. Qed.

Lemma Inv_InvBut k w : Inv w -> InvBut k w.
Proof.
  intros [Hd Hl Ho Hf Hm Ht]. split; try done.
  - intros k' h _. apply Hl.
  - intros h tm Hk Hh. destruct (Hl _ _ Hk) as (tm' & Hh' & Hcb). congruence.
Qed.

(** Rewriting the record of [k] alone keeps [InvBut k]. *)
Lemma InvBut_with_map k f w :
  (forall k', k' <> k -> JsMap.get k' (f (map w)) = JsMap.get k' (map w)) ->
  NoDup (JsMap.key_list (f (map w))) ->
  InvBut k w -> InvBut k (with_map f w).
Proof.
  intros Hf Hnd [Hd Hl Ho Hs Hfr Hm Ht]. split; simpl; try done.
  intros k' Hk'. rewrite Hf by done. by apply Hd.
Qed.

Lemma InvBut_map_set k r w : InvBut k w -> InvBut k (with_map (JsMap.set k r) w).
Proof.
  intros H. apply InvBut_with_map; [| |done].
  - intros k' Hk'. by rewrite get_set_ne.
  - apply NoDup_set, H.
Qed.

Lemma Quiet_cancel_existing k w : InvBut k w -> Quiet k (cancel_existing k w).
Proof.
  intros [Hd Hl Ho Hs Hfr Hm Ht]. unfold cancel_existing.
  destruct (JsMap.get k (timers w)) as [h|] eqn:Hk.
  - split; [split|]; simpl; try done.
    + intros k' h' Hk' Hh'. destruct (Hl _ _ Hk' Hh') as (tm & Hlk & Hcb).
      exists tm. split; [|done]. rewrite lookup_delete_ne; [done|].
      intros ->. specialize (Hs _ _ eq_refl Hlk). congruence.
    + intros h' tm Hh'. apply lookup_delete_Some in Hh' as [_ Hh']. by apply Ho.
    + intros h' tm Hk' Hh'. apply lookup_delete_Some in Hh' as [_ Hh'].
      rewrite Hk in Hk'. by eapply Hs.
    + intros h' [tm Hh']. apply lookup_delete_Some in Hh' as [_ Hh']. apply Hfr. by eexists.
    + intros h' tm Hh' Hcb. apply lookup_delete_Some in Hh' as [Hne Hh'].
      apply Ho in Hh'. rewrite Hcb in Hh'. congruence.
  - split; [split; try done; intros h tm Hk'; congruence|].
    intros h tm Hh Hcb. apply Ho in Hh. congruence.
Qed.

Lemma Quiet_fire t tm w :
  Inv w -> loop w !! t = Some tm -> Quiet (cb_key tm) (clearTimeout t w).
Proof.
  intros HI Ht. pose proof (Inv_InvBut (cb_key tm) w HI) as HB.
  apply Quiet_cancel_existing in HB. unfold cancel_existing in HB.
  by rewrite (inv_owned w HI _ _ Ht) in HB.
Qed.

(** Removing [k] from both mappings, once no timer is armed for it. *)
Lemma Inv_delete_both k w :
  Quiet k w -> Inv (with_timers (JsMap.delete k) (with_map (JsMap.delete k) w)).
Proof.
  intros [[Hd Hl Ho Hs Hfr Hm Ht] Hq]. split; simpl.
  - intros k'. rewrite !get_delete. case_decide; [done | by apply Hd].
  - intros k' h. rewrite get_delete. case_decide; [done | by apply Hl].
  - intros h tm Hh. rewrite get_delete_ne; [by apply Ho | by apply not_eq_sym, (Hq h)].
  - done.
  - by apply NoDup_delete.
  - by apply NoDup_delete.
Qed.

(** Dropping a stale handle of a key that has no record. *)
Lemma Inv_delete_handle k w :
  Quiet k w -> JsMap.get k (map w) = None -> Inv (with_timers (JsMap.delete k) w).
Proof.
  intros [[Hd Hl Ho Hs Hfr Hm Ht] Hq] Hk. split; simpl.
  - intros k'. rewrite get_delete. case_decide as Hkk; [subst; by rewrite Hk | by apply Hd].
  - intros k' h. rewrite get_delete. case_decide; [done | by apply Hl].
  - intros h tm Hh. rewrite get_delete_ne; [by apply Ho | by apply not_eq_sym, (Hq h)].
  - done.
  - done.
  - by apply NoDup_delete.
Qed.

(** Arming a fresh timer for [k] and registering its handle. *)
Lemma Inv_arm k d now w :
  Quiet k w -> is_Some (JsMap.get k (map w)) ->
  Inv (with_timers (JsMap.set k (next_handle w))
         (unref (next_handle w) (setTimeout k d now w).2)).
Proof.
  intros [[Hd Hl Ho Hs Hfr Hm Ht] Hq] Hk. unfold unref, setTimeout, with_loop, with_timers.
  simpl. rewrite alter_insert_eq. split; simpl.
  - intros k'. rewrite get_set. case_decide as Hkk; [subst; by split | by apply Hd].
  - intros k' h. rewrite get_set. case_decide as Hkk.
    + intros [= <-]. eexists. by rewrite lookup_insert_eq.
    + intros Hh. destruct (Hl _ _ (not_eq_sym Hkk) Hh) as (tm & Hlk & Hcb).
      exists tm. split; [|done]. rewrite lookup_insert_ne; [done|].
      intros <-. assert (next_handle w < next_handle w)%nat; [|lia].
      apply Hfr. by eexists.
  - intros h tm Hh. apply lookup_insert_Some in Hh as [[<- <-]|[Hne Hh]]; simpl.
    + apply get_set_eq.
    + rewrite get_set_ne; [by apply Ho | by apply not_eq_sym, (Hq h)].
  - intros h Hh. apply lookup_insert_is_Some in Hh as [<-|[_ Hh]]; [lia|].
    apply Hfr in Hh. lia.
  - done.
  - by apply NoDup_set.
Qed.

Lemma scheduleExpiry_cancel key e now w :
  scheduleExpiry key e now w =
    let w1 := cancel_existing key w in
    if e - now <=? 0 then
      with_timers (JsMap.delete key) (with_map (JsMap.delete key) w1)
    else
      with_timers (JsMap.set key (next_handle w1))
        (unref (next_handle w1)
           (setTimeout key (Z.min (e - now) MAX_TIMEOUT_MS) now w1).2).
Proof. reflexivity. Qed.

Lemma cancel_existing_map k w : map (cancel_existing k w) = map w.
Proof. unfold cancel_existing. by destruct (JsMap.get k (timers w)). Qed.

Lemma cancel_existing_timers k w : timers (cancel_existing k w) = timers w.
Proof. unfold cancel_existing. by destruct (JsMap.get k (timers w)). Qed.

Lemma cancel_existing_options k w : options (cancel_existing k w) = options w.
Proof. unfold cancel_existing. by destruct (JsMap.get k (timers w)). Qed.

Lemma Inv_scheduleExpiry key e now w :
  InvBut key w -> is_Some (JsMap.get key (map w)) -> Inv (scheduleExpiry key e now w).
Proof.
  intros HB Hk. rewrite scheduleExpiry_cancel. cbv zeta.
  apply Quiet_cancel_existing in HB.
  destruct (e - now <=? 0).
  - by apply Inv_delete_both.
  - apply Inv_arm; [done|]. by rewrite cancel_existing_map.
Qed.

Lemma Inv_on_timeout key now2 now w : Quiet key w -> Inv (on_timeout key now2 now w).
Proof.
  intros HQ. unfold on_timeout.
  destruct (JsMap.get key (map w)) as [rec|] eqn:Hk.
  - destruct (expiresAt rec <=? now2).
    + by apply Inv_delete_both.
    + apply Inv_scheduleExpiry; [apply HQ | by rewrite Hk].
  - by apply Inv_delete_handle.
Qed.

Lemma Inv_fire t now2 now w w' : Inv w -> fire t now2 now w = Some w' -> Inv w'.
Proof.
  unfold fire. intros HI. destruct (loop w !! t) as [tm|] eqn:Ht; [|done].
  intros [= <-]. apply Inv_on_timeout. by apply Quiet_fire.
Qed.

End invariant.

(** ** The invariant is kept by the public methods *)

Section methods.
Import JsMapFacts.
Implicit Types (w : Store) (k key : string) (h t : handle).

(** [delete] leaves the state that removing the key from both mappings
    leaves once the key's handle, if any, has been cancelled. *)
Lemma delete_state key w :
  (delete key w).2 =
    log_if (debug (options w) && JsMap.has key (map w)) (LogDeleted key)
      (with_timers (JsMap.delete key)
         (with_map (JsMap.delete key) (cancel_existing key w))).
Proof.
  unfold delete, cancel_existing. simpl.
  destruct (JsMap.get key (timers w)) as [timer|] eqn:Hk; simpl; [done|].
  unfold with_timers, with_map. simpl. by rewrite (delete_absent _ _ Hk).
Qed.

Lemma delete_result key w : (delete key w).1 = JsMap.has key (map w).
Proof. reflexivity. Qed.

Lemma Inv_delete key w : Inv w -> Inv (delete key w).2.
Proof.
  intros HI. rewrite delete_state. apply Inv_log_if, Inv_delete_both.
  by apply Quiet_cancel_existing, Inv_InvBut.
Qed.

Lemma Inv_get key now w : Inv w -> Inv (get key now w).2.
Proof.
  intros HI. unfold get. destruct (JsMap.get key (map w)) as [r|]; [|done].
  destruct (expiresAt r <=? now); simpl; [by apply Inv_delete | by apply Inv_log_if].
Qed.

Lemma Inv_has key now w : Inv w -> Inv (has key now w).2.
Proof.
  intros HI. unfold has. destruct (JsMap.get key (map w)) as [r|]; [|done].
  destruct (expiresAt r <=? now); simpl; [by apply Inv_delete | done].
Qed.

Lemma Inv_getMetadata key now w : Inv w -> Inv (getMetadata key now w).2.
Proof.
  intros HI. unfold getMetadata. destruct (JsMap.get key (map w)) as [r|]; [|done].
  destruct (expiresAt r <=? now); simpl; [by apply Inv_delete | done].
Qed.

Lemma Inv_getTtl key now w : Inv w -> Inv (getTtl key now w).2.
Proof.
  intros HI. unfold getTtl. destruct (JsMap.get key (map w)) as [r|]; [|done].
  cbv zeta. destruct (_ =? 0); simpl; [by apply Inv_delete | done].
Qed.

Lemma Inv_set key token ttl now now' w :
  Inv w ->
  Inv match set key token ttl now now' w with Return _ w' => w' | Throw _ w' => w' end.
Proof.
  intros HI. unfold set. cbv zeta. destruct (_ && _); [done|].
  apply Inv_log_if, Inv_scheduleExpiry.
  - by apply InvBut_map_set, Inv_InvBut.
  - simpl. by rewrite get_set_eq.
Qed.

Lemma Inv_updateTtl key ttl now now' w : Inv w -> Inv (updateTtl key ttl now now' w).2.
Proof.
  intros HI. unfold updateTtl. destruct (JsMap.get key (map w)) as [r|]; [|done].
  cbv zeta. simpl. apply Inv_log_if, Inv_scheduleExpiry.
  - by apply InvBut_map_set, Inv_InvBut.
  - simpl. by rewrite get_set_eq.
Qed.

(** Cancelling a list of handles. *)
Lemma clearTimeout_all hs w :
  let w' := fold_left (fun w timer => clearTimeout timer w) hs w in
  map w' = map w /\ timers w' = timers w /\ options w' = options w /\
  next_handle w' = next_handle w /\ console w' = console w /\
  forall h, loop w' !! h = if decide (h ∈ hs) then None else loop w !! h.
Proof.
  revert w. induction hs as [|h0 hs IH]; intros w; simpl.
  - by repeat split.
  - destruct (IH (clearTimeout h0 w)) as (Hm & Ht & Hop & Hn & Hc & Hl).
    simpl in *. repeat split; try done.
    intros h. rewrite Hl. destruct (decide (h ∈ hs)) as [Hin|Hin].
    + rewrite decide_True; [done | by apply list_elem_of_further].
    + destruct (decide (h = h0)) as [->|Hne].
      * rewrite decide_True; [apply lookup_delete_eq | apply list_elem_of_here].
      * rewrite decide_False; [by apply lookup_delete_ne|].
        intros Hc'. apply elem_of_cons in Hc' as [?|?]; done.
Qed.

Lemma Inv_clear w : Inv w -> Inv (clear w).
Proof.
  intros HI. unfold clear. cbv zeta. apply Inv_log_if.
  destruct (clearTimeout_all (JsMap.values (timers w)) w) as (Hm & Ht & Hop & Hn & Hc & Hl).
  split; simpl.
  - done.
  - done.
  - intros h tm. rewrite Hl. case_decide as Hin; [done|]. intros Hh.
    exfalso. apply Hin. eapply get_Some_values, (inv_owned w HI), Hh.
  - intros h [tm Hh]. rewrite Hl in Hh. case_decide; [done|].
    rewrite Hn. apply (inv_fresh w HI). by eexists.
  - apply NoDup_nil_2.
  - apply NoDup_nil_2.
Qed.

Lemma Inv_keys_fold now es acc :
  Inv acc.2 -> Inv (fold_left (keys_step now) es acc).2.
Proof.
  revert acc. induction es as [|[key r] es IH]; intros [vs w] HI; simpl; [done|].
  apply IH. destruct (now <? expiresAt r); simpl; [done | by apply Inv_delete].
Qed.

Lemma Inv_keys now w : Inv w -> Inv (keys now w).2.
Proof. intros HI. by apply Inv_keys_fold. Qed.

Lemma Inv_exec o w : Inv w -> Inv (exec o w).
Proof.
  intros HI. destruct o; simpl.
  - by apply Inv_set.
  - by apply Inv_get.
  - by apply Inv_delete.
  - by apply Inv_has.
  - by apply Inv_getMetadata.
  - by apply Inv_getTtl.
  - by apply Inv_updateTtl.
  - by apply Inv_clear.
  - by apply Inv_keys.
  - done.
  - destruct (fire t now2 now w) as [w'|] eqn:Hf; simpl; [by eapply Inv_fire | done].
Qed.

Lemma Inv_run ops w : Inv w -> Inv (run ops w).
Proof.
  revert w. induction ops as [|o ops IH]; intros w HI; simpl; [done|].
  by apply IH, Inv_exec.
Qed.

End methods.

(** ** The effect of each method, field by field *)

Section effects.
Import JsMapFacts.
Implicit Types (w : Store) (k key : string) (h t : handle).

(** *** Arithmetic of [Math.ceil] and of the runtime's delay *)

Lemma ceil_div_spec a b :
  0 < b -> b * (ceil_div a b - 1) < a <= b * ceil_div a b.
Proof.
  intros Hb. unfold ceil_div.
  pose proof (Z.div_mod (- a) b ltac:(lia)) as Hdm.
  pose proof (Z.mod_pos_bound (- a) b Hb) as Hm. lia.
Qed.

Lemma ceil_div_unique a b c : 0 < b -> b * (c - 1) < a <= b * c -> ceil_div a b = c.
Proof. intros Hb Hc. pose proof (ceil_div_spec a b Hb). nia. Qed.

Lemma ceil_div_mono a a' b : 0 < b -> a <= a' -> ceil_div a b <= ceil_div a' b.
Proof.
  intros Hb Ha. pose proof (ceil_div_spec a b Hb). pose proof (ceil_div_spec a' b Hb). nia.
Qed.

Lemma ceil_div_sub a b : 0 < b -> ceil_div (a - b) b = ceil_div a b - 1.
Proof.
  intros Hb. apply ceil_div_unique; [done|]. pose proof (ceil_div_spec a b Hb). lia.
Qed.

Lemma ceil_div_pos a b : 0 < b -> 0 < a -> 1 <= ceil_div a b.
Proof. intros Hb Ha. pose proof (ceil_div_spec a b Hb). nia. Qed.

Lemma node_delay_segment r : 0 < r -> node_delay (Z.min r MAX_TIMEOUT_MS) = Z.min r MAX_TIMEOUT_MS.
Proof.
  intros Hr. unfold node_delay.
  assert (1 <= Z.min r MAX_TIMEOUT_MS <= MAX_TIMEOUT_MS) as [H1 H2]
    by (unfold MAX_TIMEOUT_MS; lia).
  apply Z.leb_le in H1, H2. by rewrite H1, H2.
Qed.

(** *** [scheduleExpiry] *)

Lemma cancel_existing_next k w : next_handle (cancel_existing k w) = next_handle w.
Proof. unfold cancel_existing. by destruct (JsMap.get k (timers w)). Qed.

Lemma cancel_existing_console k w : console (cancel_existing k w) = console w.
Proof. unfold cancel_existing. by destruct (JsMap.get k (timers w)). Qed.

Lemma cancel_existing_loop k w :
  loop (cancel_existing k w) =
    match JsMap.get k (timers w) with
    | Some existing => base.delete existing (loop w)
    | None => loop w
    end.
Proof. unfold cancel_existing. by destruct (JsMap.get k (timers w)). Qed.

(** The deadline has passed: the key leaves both mappings and no timer
    is armed. *)
Lemma scheduleExpiry_past key e now w :
  e - now <= 0 ->
  scheduleExpiry key e now w =
    with_timers (JsMap.delete key) (with_map (JsMap.delete key) (cancel_existing key w)).
Proof.
  intros H. rewrite scheduleExpiry_cancel. cbv zeta.
  apply Z.leb_le in H. by rewrite H.
Qed.

(** The deadline is ahead: the record stays, a fresh timer is armed for
    the segment [min(remaining, MAX_TIMEOUT_MS)] and registered. *)
Lemma scheduleExpiry_ahead key e now w :
  0 < e - now ->
  scheduleExpiry key e now w =
    mkStore (map w)
      (JsMap.set key (next_handle w) (timers w))
      (options w)
      (<[next_handle w := mkTimeout key (Z.min (e - now) MAX_TIMEOUT_MS) now false]>
         (loop (cancel_existing key w)))
      (S (next_handle w))
      (console w).
Proof.
  intros H. rewrite scheduleExpiry_cancel. cbv zeta.
  apply Z.leb_gt in H. rewrite H.
  unfold unref, setTimeout, with_timers, with_loop. simpl.
  rewrite alter_insert_eq. simpl. rewrite node_delay_segment by (apply Z.leb_gt in H; lia).
  by rewrite cancel_existing_map, cancel_existing_timers, cancel_existing_options,
    cancel_existing_next, cancel_existing_console.
Qed.

Lemma scheduleExpiry_options key e now w : options (scheduleExpiry key e now w) = options w.
Proof.
  destruct (Z_le_gt_dec (e - now) 0) as [H|H].
  - rewrite scheduleExpiry_past by done. simpl. apply cancel_existing_options.
  - by rewrite scheduleExpiry_ahead by lia.
Qed.

(** [scheduleExpiry key] leaves the record and the handle of every other
    key alone. *)
Lemma scheduleExpiry_frame key e now w k' :
  k' <> key ->
  JsMap.get k' (map (scheduleExpiry key e now w)) = JsMap.get k' (map w) /\
  JsMap.get k' (timers (scheduleExpiry key e now w)) = JsMap.get k' (timers w).
Proof.
  intros Hk. destruct (Z_le_gt_dec (e - now) 0) as [H|H].
  - rewrite scheduleExpiry_past by done. simpl.
    rewrite cancel_existing_map, cancel_existing_timers.
    by rewrite !get_delete_ne.
  - rewrite scheduleExpiry_ahead by lia. simpl. by rewrite get_set_ne.
Qed.

(** The record of any key survives [scheduleExpiry] unless the deadline
    handed over has passed. *)
Lemma scheduleExpiry_keeps key e now w k :
  0 < e - now -> JsMap.get k (map (scheduleExpiry key e now w)) = JsMap.get k (map w).
Proof. intros H. by rewrite scheduleExpiry_ahead. Qed.

Lemma scheduleExpiry_Cleaned key e now w :
  e - now <= 0 ->
  Cleaned key (JsMap.get key (timers w)) (scheduleExpiry key e now w) /\
  next_handle (scheduleExpiry key e now w) = next_handle w /\
  loop (scheduleExpiry key e now w) ⊆ loop w.
Proof.
  intros H. rewrite scheduleExpiry_past by done.
  unfold Cleaned, with_timers, with_map. simpl.
  rewrite cancel_existing_next, cancel_existing_loop. repeat split.
  - by rewrite get_delete_eq.
  - by rewrite get_delete_eq.
  - intros t ->. apply lookup_delete_eq.
  - destruct (JsMap.get key (timers w)); [apply delete_subseteq | done].
Qed.

Lemma scheduleExpiry_Armed key e now w rec :
  0 < e - now ->
  JsMap.get key (map w) = Some rec -> expiresAt rec = e ->
  Armed key rec (mkTimeout key (Z.min (e - now) MAX_TIMEOUT_MS) now false)
    (scheduleExpiry key e now w).
Proof.
  intros H Hk He. rewrite scheduleExpiry_ahead by done. unfold Armed. simpl.
  repeat split; try done; try lia.
  exists (next_handle w). by rewrite get_set_eq, lookup_insert_eq.
Qed.

(** *** [set], [delete] and logging *)

(** The two ways [set] can go. *)
Lemma set_cases key token ttlSeconds now now' w :
  let ttl := nullish ttlSeconds (defaultTtl (options w)) in
  (JsMap.get key (map w) = None /\ maxSize (options w) <= JsMap.size (map w) /\
   set key token ttlSeconds now now' w = Throw (SizeLimitExceeded (maxSize (options w))) w)
  \/
  ((is_Some (JsMap.get key (map w)) \/ JsMap.size (map w) < maxSize (options w)) /\
   set key token ttlSeconds now now' w =
     Return tt
       (log_if (debug (options w)) (LogSet key ttl)
          (scheduleExpiry key (now + ttl * 1000) now'
             (with_map (JsMap.set key (mkTokenRecord token (now + ttl * 1000) now)) w)))).
Proof.
  unfold set. cbv zeta. rewrite scheduleExpiry_options. simpl.
  destruct (JsMap.has key (map w)) eqn:Hhas; simpl.
  - right. apply has_true in Hhas. split; [by left | done].
  - apply has_false in Hhas.
    destruct (maxSize (options w) <=? JsMap.size (map w)) eqn:Hsz.
    + left. apply Z.leb_le in Hsz. done.
    + right. apply Z.leb_gt in Hsz. split; [right; lia | done].
Qed.

Lemma map_log_if b l w : map (log_if b l w) = map w.
Proof. by destruct b. Qed.

Lemma timers_log_if b l w : timers (log_if b l w) = timers w.
Proof. by destruct b. Qed.

Lemma loop_log_if b l w : loop (log_if b l w) = loop w.
Proof. by destruct b. Qed.

Lemma options_log_if b l w : options (log_if b l w) = options w.
Proof. by destruct b. Qed.

Lemma next_handle_log_if b l w : next_handle (log_if b l w) = next_handle w.
Proof. by destruct b. Qed.

(** What [delete] leaves behind for its key. *)
Lemma delete_Cleaned key w : Cleaned key (JsMap.get key (timers w)) (delete key w).2.
Proof.
  rewrite delete_state. unfold Cleaned.
  rewrite map_log_if, timers_log_if, loop_log_if. simpl.
  rewrite cancel_existing_loop. repeat split.
  - by rewrite get_delete_eq.
  - by rewrite get_delete_eq.
  - intros t ->. apply lookup_delete_eq.
Qed.

(** [delete] never adds anything: what is gone stays gone. *)
Lemma delete_keeps_Cleaned k ot key w : Cleaned k ot w -> Cleaned k ot (delete key w).2.
Proof.
  intros (Hm & Ht & Hl). rewrite delete_state. unfold Cleaned.
  rewrite map_log_if, timers_log_if, loop_log_if. simpl.
  rewrite cancel_existing_map, cancel_existing_timers, cancel_existing_loop.
  rewrite !get_delete. repeat split.
  - by case_decide.
  - by case_decide.
  - intros t Hot. specialize (Hl t Hot).
    destruct (JsMap.get key (timers w)); [|done].
    apply lookup_delete_None. by right.
Qed.

Lemma delete_frame key w k' :
  k' <> key ->
  JsMap.get k' (map (delete key w).2) = JsMap.get k' (map w) /\
  JsMap.get k' (timers (delete key w).2) = JsMap.get k' (timers w).
Proof.
  intros Hk. rewrite delete_state, map_log_if, timers_log_if. simpl.
  rewrite cancel_existing_map, cancel_existing_timers. by rewrite !get_delete_ne.
Qed.


(** *** Reads of an expired key *)

(** The array [keys] returns: the keys of the entries that are still
    alive, in the order of the mapping. *)
Lemma keys_fold_result now es acc :
  (fold_left (keys_step now) es acc).1 =
    acc.1 ++ (filter (fun e => now < expiresAt e.2) es).*1.
Proof.
  revert acc. induction es as [|[key r] es IH]; intros [vs w]; simpl.
  - by rewrite app_nil_r.
  - rewrite IH. rewrite filter_cons. simpl.
    destruct (Z.ltb_spec now (expiresAt r)) as [Hlt|Hge]; simpl.
    + rewrite decide_True by done. simpl. by rewrite <- app_assoc.
    + rewrite decide_False by lia. done.
Qed.

Lemma keys_result now w :
  (keys now w).1 = (filter (fun e => now < expiresAt e.2) (JsMap.entries (map w))).*1.
Proof. unfold keys. by rewrite keys_fold_result. Qed.

(** An expired entry of [k] among those the loop still has to visit is
    enough for [k] to be gone at the end. *)
Lemma keys_fold_Cleaned now k ot es acc :
  Cleaned k ot acc.2 \/
  (JsMap.get k (timers acc.2) = ot /\
   exists rec, (k, rec) ∈ es /\ expiresAt rec <= now) ->
  Cleaned k ot (fold_left (keys_step now) es acc).2.
Proof.
  revert acc. induction es as [|[key r] es IH]; intros [vs w]; simpl.
  - intros [H|(_ & rec & Hin & _)]; [done | by apply elem_of_nil in Hin].
  - intros [Hc|(Hot & rec & Hin & Hexp)]; apply IH; simpl.
    + left. destruct (now <? expiresAt r); simpl; [done | by apply delete_keeps_Cleaned].
    + destruct (Z.ltb_spec now (expiresAt r)) as [Hlt|Hge]; simpl.
      * right. split; [done|]. exists rec. split; [|done].
        apply elem_of_cons in Hin as [[= -> ->]|Hin]; [lia | done].
      * destruct (decide (key = k)) as [->|Hne].
        -- left. rewrite <- Hot. apply delete_Cleaned.
        -- right. split.
           ++ rewrite <- Hot. by apply delete_frame.
           ++ exists rec. split; [|done].
              apply elem_of_cons in Hin as [[= -> ->]|Hin]; [done | done].
Qed.


(** Destroy-on-read, method by method. *)
Lemma get_expired w key rec now :
  JsMap.get key (map w) = Some rec -> expiresAt rec <= now ->
  (get key now w).1 = None /\ Cleaned key (JsMap.get key (timers w)) (get key now w).2.
Proof.
  intros Hrec Hexp. unfold get. rewrite Hrec.
  apply Z.leb_le in Hexp. rewrite Hexp. split; [done | apply delete_Cleaned].
Qed.

Lemma has_expired w key rec now :
  JsMap.get key (map w) = Some rec -> expiresAt rec <= now ->
  (has key now w).1 = false /\ Cleaned key (JsMap.get key (timers w)) (has key now w).2.
Proof.
  intros Hrec Hexp. unfold has. rewrite Hrec.
  apply Z.leb_le in Hexp. rewrite Hexp. split; [done | apply delete_Cleaned].
Qed.

Lemma getMetadata_expired w key rec now :
  JsMap.get key (map w) = Some rec -> expiresAt rec <= now ->
  (getMetadata key now w).1 = None /\
  Cleaned key (JsMap.get key (timers w)) (getMetadata key now w).2.
Proof.
  intros Hrec Hexp. unfold getMetadata. rewrite Hrec.
  apply Z.leb_le in Hexp. rewrite Hexp. split; [done | apply delete_Cleaned].
Qed.

Lemma getTtl_expired w key rec now :
  JsMap.get key (map w) = Some rec -> expiresAt rec <= now ->
  (getTtl key now w).1 = None /\ Cleaned key (JsMap.get key (timers w)) (getTtl key now w).2.
Proof.
  intros Hrec Hexp. unfold getTtl. rewrite Hrec. cbv zeta.
  assert ((Z.max 0 (expiresAt rec - now) =? 0) = true) as -> by (apply Z.eqb_eq; lia).
  split; [done | apply delete_Cleaned].
Qed.

Lemma keys_expired w key rec now :
  JsMap.get key (map w) = Some rec -> expiresAt rec <= now ->
  (NoDup (JsMap.key_list (map w)) -> key ∉ (keys now w).1) /\
  Cleaned key (JsMap.get key (timers w)) (keys now w).2.
Proof.
  intros Hrec Hexp. split.
  - intros Hnd Hin. rewrite keys_result in Hin.
    apply list_elem_of_fmap in Hin as ([k r] & Hk & Hin). simpl in Hk. subst k.
    apply list_elem_of_filter in Hin as [Hlive Hin]. simpl in Hlive.
    apply (elem_get_NoDup _ _ _ Hnd) in Hin. rewrite Hrec in Hin.
    injection Hin as <-. lia.
  - apply keys_fold_Cleaned. right. simpl. split; [done|].
    exists rec. split; [by apply get_Some_elem | done].
Qed.

(** *** Records that are still alive *)

(** The state a completed [set] leaves. *)
Lemma set_Return key token ttlSeconds now now' w w' :
  set key token ttlSeconds now now' w = Return tt w' ->
  let ttl := nullish ttlSeconds (defaultTtl (options w)) in
  w' = log_if (debug (options w)) (LogSet key ttl)
         (scheduleExpiry key (now + ttl * 1000) now'
            (with_map (JsMap.set key (mkTokenRecord token (now + ttl * 1000) now)) w)).
Proof.
  intros Hset. destruct (set_cases key token ttlSeconds now now' w) as [(_ & _ & Hs)|[_ Hs]];
    rewrite Hs in Hset; [done | by injection Hset].
Qed.

(** A completed [set] whose deadline is still ahead when the expiry is
    scheduled leaves the record in place with its first segment armed. *)
Lemma set_Armed key token ttlSeconds now now' w w' :
  set key token ttlSeconds now now' w = Return tt w' ->
  let e := now + nullish ttlSeconds (defaultTtl (options w)) * 1000 in
  now' < e ->
  Armed key (mkTokenRecord token e now)
    (mkTimeout key (Z.min (e - now') MAX_TIMEOUT_MS) now' false) w'.
Proof.
  intros Hset e Hnow. apply set_Return in Hset. cbv zeta in Hset. subst w'.
  unfold Armed. rewrite map_log_if, timers_log_if, loop_log_if.
  apply scheduleExpiry_Armed; [lia | | done]. simpl. apply get_set_eq.
Qed.

Lemma get_live w key rec now :
  JsMap.get key (map w) = Some rec -> now < expiresAt rec ->
  (get key now w).1 = Some (token rec).
Proof.
  intros Hrec Hlive. unfold get. rewrite Hrec.
  apply Z.leb_gt in Hlive. by rewrite Hlive.
Qed.

Lemma getTtl_live w key rec now :
  JsMap.get key (map w) = Some rec -> now < expiresAt rec ->
  getTtl key now w = (Some (ceil_div (expiresAt rec - now) 1000), w).
Proof.
  intros Hrec Hlive. unfold getTtl. rewrite Hrec. cbv zeta.
  rewrite Z.max_r by lia.
  by assert ((expiresAt rec - now =? 0) = false) as -> by (apply Z.eqb_neq; lia).
Qed.

(** A timer callback does not touch a record whose deadline is ahead of
    the callback's clock readings, whichever timer it is and whenever it
    fires. *)
Lemma fire_keeps_record t now2 now w w' k rec :
  fire t now2 now w = Some w' ->
  JsMap.get k (map w) = Some rec ->
  now2 < expiresAt rec -> now < expiresAt rec ->
  JsMap.get k (map w') = Some rec.
Proof.
  unfold fire. destruct (loop w !! t) as [tm|]; [|done]. intros [= <-] Hrec H2 H1.
  unfold on_timeout. simpl.
  destruct (decide (cb_key tm = k)) as [->|Hne].
  - rewrite Hrec. apply Z.leb_gt in H2. rewrite H2.
    rewrite scheduleExpiry_keeps by lia. done.
  - destruct (JsMap.get (cb_key tm) (map w)) as [r|]; [|done].
    destruct (expiresAt r <=? now2); simpl.
    + by rewrite get_delete_ne.
    + by rewrite (proj1 (scheduleExpiry_frame _ _ _ _ k (not_eq_sym Hne))).
Qed.

Lemma fire_all_keeps_record fires w w' k rec :
  JsMap.get k (map w) = Some rec ->
  before (expiresAt rec) fires ->
  fire_all fires w = Some w' ->
  JsMap.get k (map w') = Some rec.
Proof.
  revert w. induction fires as [|[[t now2] now] fires IH]; intros w Hrec Hb; simpl.
  - by intros [= <-].
  - apply Forall_cons in Hb as [[H2 H1] Hb]. simpl in H2, H1.
    destruct (fire t now2 now w) as [w1|] eqn:Hf; [|done].
    apply IH; [|done]. by eapply fire_keeps_record.
Qed.


(** *** Lifetimes and their chains of segments *)

(** The two ways [updateTtl] can go. *)
Lemma updateTtl_present key ttlSeconds now now' w rec :
  JsMap.get key (map w) = Some rec ->
  updateTtl key ttlSeconds now now' w =
    (true,
     log_if (debug (options w)) (LogUpdatedTtl key ttlSeconds)
       (scheduleExpiry key (now + ttlSeconds * 1000) now'
          (with_map
             (JsMap.set key
                (mkTokenRecord (token rec) (now + ttlSeconds * 1000) (createdAt rec))) w))).
Proof.
  intros Hrec. unfold updateTtl. rewrite Hrec. cbv zeta.
  by rewrite scheduleExpiry_options.
Qed.

Lemma updateTtl_absent key ttlSeconds now now' w :
  JsMap.get key (map w) = None -> updateTtl key ttlSeconds now now' w = (false, w).
Proof. intros Hnone. unfold updateTtl. by rewrite Hnone. Qed.

(** The state in which a lifetime starts: the key is either gone at once
    (the deadline was not ahead) or armed with a first segment that starts
    no earlier than the operation. *)
Lemma starts_lifetime_state k ttl now now' w0 w :
  starts_lifetime k ttl now now' w0 w ->
  (now + ttl * 1000 - now' <= 0 /\
   JsMap.get k (map w) = None /\ JsMap.get k (timers w) = None)
  \/
  (0 < now + ttl * 1000 - now' /\
   exists rec, expiresAt rec = now + ttl * 1000 /\
     Armed k rec (mkTimeout k (Z.min (now + ttl * 1000 - now') MAX_TIMEOUT_MS) now' false) w).
Proof.
  intros [(token & ttlSeconds & Httl & Hset)|Hupd].
  - apply set_Return in Hset. cbv zeta in Hset. rewrite Httl in Hset. subst w.
    destruct (Z_le_gt_dec (now + ttl * 1000 - now') 0) as [Hpast|Hahead].
    + left. split; [done|]. rewrite map_log_if, timers_log_if.
      by destruct (scheduleExpiry_Cleaned k (now + ttl * 1000) now'
                  (with_map (JsMap.set k (mkTokenRecord token (now + ttl * 1000) now)) w0)
                  Hpast) as ((? & ? & _) & _).
    + right. split; [lia|]. eexists. split; [|unfold Armed;
        rewrite map_log_if, timers_log_if, loop_log_if;
        apply scheduleExpiry_Armed; [lia | simpl; apply get_set_eq | done]]. done.
  - destruct (JsMap.get k (map w0)) as [r0|] eqn:Hr0.
    2:{ rewrite updateTtl_absent in Hupd by done. done. }
    rewrite (updateTtl_present _ _ _ _ _ _ Hr0) in Hupd. injection Hupd as <-.
    destruct (Z_le_gt_dec (now + ttl * 1000 - now') 0) as [Hpast|Hahead].
    + left. split; [done|]. rewrite map_log_if, timers_log_if.
      by destruct (scheduleExpiry_Cleaned k (now + ttl * 1000) now'
                  (with_map (JsMap.set k
                     (mkTokenRecord (token r0) (now + ttl * 1000) (createdAt r0))) w0)
                  Hpast) as ((? & ? & _) & _).
    + right. split; [lia|]. eexists. split; [|unfold Armed;
        rewrite map_log_if, timers_log_if, loop_log_if;
        apply scheduleExpiry_Armed; [lia | simpl; apply get_set_eq | done]]. done.
Qed.

(** One segment fires, on time: the key is reclaimed, or the next segment
    is armed and the remaining time has shrunk by a full [MAX_TIMEOUT_MS]. *)
Lemma fire_segment k rec tm t now2 now w w' :
  Armed k rec tm w ->
  JsMap.get k (timers w) = Some t ->
  due tm now2 = true -> now2 <= now ->
  fire t now2 now w = Some w' ->
  (JsMap.get k (map w') = None /\ JsMap.get k (timers w') = None)
  \/
  (exists tm', Armed k rec tm' w' /\
     expiresAt rec - armed_at tm' <= expiresAt rec - armed_at tm - MAX_TIMEOUT_MS).
Proof.
  intros (Hrec & (t0 & Ht0 & Htm) & Hcb & Hpos & Hdelay) Ht Hdue Hmono.
  rewrite Ht0 in Ht. injection Ht as ->.
  unfold fire. rewrite Htm. intros [= <-]. rewrite Hcb.
  unfold on_timeout. simpl. rewrite Hrec.
  unfold due in Hdue. apply Z.leb_le in Hdue.
  destruct (Z.leb_spec (expiresAt rec) now2) as [Hexp|Hlive]; simpl.
  - left. by rewrite !get_delete_eq.
  - destruct (Z_le_gt_dec (expiresAt rec - now) 0) as [Hpast|Hahead].
    + left. by destruct (scheduleExpiry_Cleaned k (expiresAt rec) now (clearTimeout t w) Hpast)
        as ((? & ? & _) & _).
    + right. eexists. split.
      * apply scheduleExpiry_Armed; [lia | done | done].
      * simpl. lia.
Qed.

Lemma fire_chain_gone k evs w w' :
  JsMap.get k (timers w) = None -> fire_chain k evs w = Some w' -> evs = [] /\ w' = w.
Proof.
  intros Hnone. destruct evs as [|[now2 now] evs]; simpl.
  - by intros [= <-].
  - by rewrite Hnone.
Qed.

(** The number of segments that can fire, and the state they end in. *)
Lemma fire_chain_bound k rec evs :
  forall w w' tm,
    Armed k rec tm w ->
    fire_chain k evs w = Some w' ->
    Z.of_nat (length evs) <= ceil_div (expiresAt rec - armed_at tm) MAX_TIMEOUT_MS /\
    ((JsMap.get k (map w') = None /\ JsMap.get k (timers w') = None) \/
     exists tm', Armed k rec tm' w').
Proof.
  assert (0 < MAX_TIMEOUT_MS) as HM by done.
  induction evs as [|[now2 now] evs IH]; intros w w' tm HA; simpl.
  - intros [= <-]. split; [|right; by exists tm].
    pose proof (ceil_div_pos (expiresAt rec - armed_at tm) MAX_TIMEOUT_MS HM).
    destruct HA as (_ & _ & _ & Hpos & _). lia.
  - pose proof HA as (_ & (t & Ht & Htm) & _ & Hpos & _). rewrite Ht, Htm.
    destruct (due tm now2) eqn:Hdue; simpl; [|done].
    destruct (Z.leb_spec now2 now) as [Hmono|]; [|done].
    destruct (fire t now2 now w) as [w1|] eqn:Hf; [|done]. intros Hchain.
    destruct (fire_segment _ _ _ _ _ _ _ _ HA Ht Hdue Hmono Hf)
      as [[Hm Hg]|(tm' & HA' & Hless)].
    + destruct (fire_chain_gone _ _ _ _ Hg Hchain) as [-> ->]. simpl.
      split; [|by left].
      pose proof (ceil_div_pos (expiresAt rec - armed_at tm) MAX_TIMEOUT_MS HM). lia.
    + destruct (IH _ _ _ HA' Hchain) as [Hlen Hend]. split; [|done].
      pose proof (ceil_div_mono _ _ MAX_TIMEOUT_MS HM Hless) as Hmon.
      rewrite ceil_div_sub in Hmon by done. lia.
Qed.


(** [scheduleExpiry key] touches two timers at most: the one registered
    for [key] and the one it arms. *)
Lemma scheduleExpiry_loop_frame key e now w t :
  JsMap.get key (timers w) <> Some t -> t <> next_handle w ->
  loop (scheduleExpiry key e now w) !! t = loop w !! t.
Proof.
  intros Hreg Hnew.
  assert (loop (cancel_existing key w) !! t = loop w !! t) as Hc.
  { rewrite cancel_existing_loop. destruct (JsMap.get key (timers w)) as [t0|]; [|done].
    apply lookup_delete_ne. congruence. }
  destruct (Z_le_gt_dec (e - now) 0) as [Hpast|Hahead].
  - rewrite scheduleExpiry_past by done. done.
  - rewrite scheduleExpiry_ahead by lia. simpl. by rewrite lookup_insert_ne.
Qed.

(** With the deadline not ahead, [scheduleExpiry] arms nothing. *)
Lemma scheduleExpiry_no_timer key e now w :
  e - now <= 0 ->
  JsMap.get key (map (scheduleExpiry key e now w)) = None /\
  JsMap.get key (timers (scheduleExpiry key e now w)) = None /\
  next_handle (scheduleExpiry key e now w) = next_handle w /\
  loop (scheduleExpiry key e now w) ⊆ loop w.
Proof.
  intros H. by destruct (scheduleExpiry_Cleaned key e now w H) as ((? & ? & _) & ? & ?).
Qed.


Lemma fire_chain_app k evs1 evs2 w :
  fire_chain k (evs1 ++ evs2) w =
    match fire_chain k evs1 w with
    | Some w1 => fire_chain k evs2 w1
    | None => None
    end.
Proof.
  revert w. induction evs1 as [|[now2 now] evs1 IH]; intros w; simpl; [done|].
  destruct (JsMap.get k (timers w)) as [t|]; [|done].
  destruct (loop w !! t) as [tm|]; [|done].
  destruct (due tm now2 && (now2 <=? now)); [|done].
  destruct (fire t now2 now w) as [w1|]; [apply IH | done].
Qed.

(** An armed chain can always be run to its end: firing every segment
    exactly when it is due reclaims the key. *)
Lemma fire_chain_completes k rec n :
  forall w tm,
    Armed k rec tm w ->
    ceil_div (expiresAt rec - armed_at tm) MAX_TIMEOUT_MS <= Z.of_nat n ->
    exists evs w',
      fire_chain k evs w = Some w' /\
      JsMap.get k (map w') = None /\ JsMap.get k (timers w') = None.
Proof.
  assert (0 < MAX_TIMEOUT_MS) as HM by done.
  induction n as [|n IH]; intros w tm HA Hn.
  - pose proof (ceil_div_pos (expiresAt rec - armed_at tm) MAX_TIMEOUT_MS HM).
    destruct HA as (_ & _ & _ & Hpos & _). lia.
  - pose proof HA as (_ & (t & Ht & Htm) & _ & Hpos & _).
    set (d := armed_at tm + delay tm).
    assert (due tm d = true) as Hdue by (unfold due, d; apply Z.leb_le; lia).
    assert (exists w1, fire t d d w = Some w1) as [w1 Hf]
      by (unfold fire; rewrite Htm; by eexists).
    assert (forall evs, fire_chain k ((d, d) :: evs) w = fire_chain k evs w1) as Hstep.
    { intros evs. simpl. rewrite Ht, Htm, Hdue, Hf.
      by assert ((d <=? d) = true) as -> by (apply Z.leb_le; lia). }
    destruct (fire_segment _ _ _ _ _ _ _ _ HA Ht Hdue (Z.le_refl d) Hf)
      as [[Hm Hg]|(tm' & HA' & Hless)].
    + exists [(d, d)], w1. by rewrite Hstep.
    + destruct (IH w1 tm' HA') as (evs & w' & Hchain & Hgone).
      { pose proof (ceil_div_mono _ _ MAX_TIMEOUT_MS HM Hless) as Hmon.
        rewrite ceil_div_sub in Hmon by done. lia. }
      exists ((d, d) :: evs), w'. by rewrite Hstep.
Qed.


End effects.

(** ** The claims *)

Section claims.
Import JsMapFacts.
Implicit Types (w : Store) (k key : string) (h t : handle).

(** *** Capacity *)

(** C5. [set] throws the size-limit error exactly when the key has no
    record and the entry count of the record mapping has reached
    [maxSize]; it throws nothing else; a key that has a record is always
    overwritten; and a throwing [set] leaves the whole state, so both
    mappings, as it found it. *)
Theorem C5_capacity_error (w : Store) (key token : string) (ttlSeconds : option Z) (now now' : Z) :
  ((exists e w', set key token ttlSeconds now now' w = Throw e w') <->
     JsMap.get key (map w) = None /\ maxSize (options w) <= JsMap.size (map w)) /\
  (forall e w', set key token ttlSeconds now now' w = Throw e w' ->
     e = SizeLimitExceeded (maxSize (options w)) /\ w' = w /\
     map w' = map w /\ timers w' = timers w) /\
  (is_Some (JsMap.get key (map w)) ->
     exists w', set key token ttlSeconds now now' w = Return tt w').
Proof.
  destruct (set_cases key token ttlSeconds now now' w) as [(Hk & Hsz & ->)|[Hok ->]].
  - split; [|split].
    + split; [done | intros _; by eexists _, _].
    + by intros e w' [= <- <-].
    + rewrite Hk. by intros [? ?].
  - split; [|split].
    + split; [by intros (e & w' & [=]) |].
      intros [Hk Hsz]. destruct Hok as [Hs|?]; [|lia]. rewrite Hk in Hs. by destruct Hs.
    + by intros e w' [=].
    + intros _. by eexists.
Qed.

(** The full store refuses the new key b and keeps its state, and takes
    an overwrite of the key a that it holds. *)
Lemma C5_capacity_error_witness :
  (exists e w', set "b" "v" (Some 60) 0 0 full_store = Throw e w') /\
  (forall e w', set "b" "v" (Some 60) 0 0 full_store = Throw e w' ->
     e = SizeLimitExceeded (maxSize (options full_store)) /\ w' = full_store /\
     map w' = map full_store /\ timers w' = timers full_store) /\
  (exists w', set "a" "v2" (Some 60) 0 0 full_store = Return tt w').
Proof.
  pose proof (C5_capacity_error full_store "b" "v" (Some 60) 0 0) as (Hiff & Hsame & _).
  pose proof (C5_capacity_error full_store "a" "v2" (Some 60) 0 0) as (_ & _ & Hover).
  split; [|split].
  - apply Hiff. split; [reflexivity | by vm_compute].
  - exact Hsame.
  - apply Hover. by eexists.
Defined.

(** The capacity example of the specification: with [maxSize = 2] two
    new keys go in, a third new key is refused, and overwriting one of the
    first two still works. *)
Example capacity_two :
  let w2 := run [OpSet "a" "1" (Some 60) 0 0; OpSet "b" "2" (Some 60) 0 0]
              (new (mkTokenStoreOptions (Some 2) None None)) in
  JsMap.key_list (map w2) = ["a"; "b"] /\
  set "c" "3" (Some 60) 0 0 w2 = Throw (SizeLimitExceeded 2) w2 /\
  (exists w3, set "a" "4" (Some 60) 0 0 w2 = Return tt w3 /\ (get "a" 0 w3).1 = Some "4").
Proof. vm_compute. repeat split. by eexists. Qed.

(** *** Constructor options *)

(** C10. The constructor merges options with [||]: a [maxSize] of 0 (as an
    absent one) becomes [Number.MAX_SAFE_INTEGER], so the store accepts
    inserts instead of refusing all of them, and a [defaultTtl] of 0 (as an
    absent one) becomes 3600 seconds, which is the lifetime a [set] without
    a lifetime then gives. *)
Theorem C10_falsy_options (o : TokenStoreOptions) :
  maxSize (options (new o)) =
    match opt_maxSize o with
    | Some n => if n =? 0 then MAX_SAFE_INTEGER else n
    | None => MAX_SAFE_INTEGER
    end /\
  defaultTtl (options (new o)) =
    match opt_defaultTtl o with
    | Some n => if n =? 0 then 3600 else n
    | None => 3600
    end /\
  (opt_maxSize o = Some 0 ->
     maxSize (options (new o)) = 9007199254740991 /\
     forall key token ttlSeconds now now',
       exists w', set key token ttlSeconds now now' (new o) = Return tt w') /\
  (opt_defaultTtl o = Some 0 ->
     defaultTtl (options (new o)) = 3600 /\
     forall key token now now' w',
       set key token None now now' (new o) = Return tt w' -> now' < now + 3600 * 1000 ->
       JsMap.get key (map w') = Some (mkTokenRecord token (now + 3600 * 1000) now)).
Proof.
  destruct o as [ms dt dbg]. simpl.
  split; [by destruct ms as [[| |]|] |].
  split; [by destruct dt as [[| |]|] |].
  split.
  - intros [= ->]. split; [done|].
    intros key token ttlSeconds now now'.
    destruct (set_cases key token ttlSeconds now now'
                (new (mkTokenStoreOptions (Some 0) dt dbg))) as [(_ & Hsz & _)|[_ ->]].
    + simpl in Hsz. unfold JsMap.size, MAX_SAFE_INTEGER in Hsz. simpl in Hsz. lia.
    + by eexists.
  - intros [= ->]. split; [done|].
    intros key token now now' w' Hset Hnow.
    destruct (set_cases key token None now now'
                (new (mkTokenStoreOptions ms (Some 0) dbg))) as [(_ & _ & Hs)|[_ Hs]];
      rewrite Hs in Hset; [done|].
    injection Hset as <-. simpl.
    rewrite map_log_if, scheduleExpiry_keeps by lia. simpl. by rewrite decide_True.
Qed.

(** A store built with [maxSize: 0] and [defaultTtl: 0] takes an insert
    and gives it one hour. *)
Lemma C10_falsy_options_witness :
  let o := mkTokenStoreOptions (Some 0) (Some 0) None in
  maxSize (options (new o)) = 9007199254740991 /\
  defaultTtl (options (new o)) = 3600 /\
  (exists w', set "k" "v" None 0 0 (new o) = Return tt w').
Proof.
  pose proof (C10_falsy_options (mkTokenStoreOptions (Some 0) (Some 0) None))
    as (_ & _ & Hm & Hd).
  destruct (Hm eq_refl) as [Hmax Hset]. destruct (Hd eq_refl) as [Hdef _].
  exact (conj Hmax (conj Hdef (Hset "k" "v" None 0 0))).
Defined.

(** *** Reads *)

(** C3. When the record of [key] has [expiresAt <= now], each of [get],
    [has], [getMetadata], [getTtl] and [keys] reports the key as absent
    and leaves it without record and without handle, the handle it had
    being cancelled; nothing is assumed about the timer, fired or not.
    (For [keys], the list that stands for the [Map] is taken to hold each
    key once, as a JavaScript [Map] does.) *)
Theorem C3_expired_reads_clean_up
    (w : Store) (key : string) (rec : TokenRecord) (now : Z)
    (Hrec : JsMap.get key (map w) = Some rec)
    (Hexp : expiresAt rec <= now) :
  let gone := Cleaned key (JsMap.get key (timers w)) in
  ((get key now w).1 = None /\ gone (get key now w).2) /\
  ((has key now w).1 = false /\ gone (has key now w).2) /\
  ((getMetadata key now w).1 = None /\ gone (getMetadata key now w).2) /\
  ((getTtl key now w).1 = None /\ gone (getTtl key now w).2) /\
  ((NoDup (JsMap.key_list (map w)) -> key ∉ (keys now w).1) /\ gone (keys now w).2).
Proof.
  cbv zeta.
  split; [by eapply get_expired|].
  split; [by eapply has_expired|].
  split; [by eapply getMetadata_expired|].
  split; [by eapply getTtl_expired|].
  by eapply keys_expired.
Qed.

(** The cleanup-on-read example of the specification: a one-second token
    read two seconds later. *)
Lemma C3_expired_reads_clean_up_witness :
  let gone := Cleaned "k" (JsMap.get "k" (timers store_k1)) in
  ((get "k" 3000 store_k1).1 = None /\ gone (get "k" 3000 store_k1).2) /\
  ((has "k" 3000 store_k1).1 = false /\ gone (has "k" 3000 store_k1).2) /\
  ((getMetadata "k" 3000 store_k1).1 = None /\ gone (getMetadata "k" 3000 store_k1).2) /\
  ((getTtl "k" 3000 store_k1).1 = None /\ gone (getTtl "k" 3000 store_k1).2) /\
  ((NoDup (JsMap.key_list (map store_k1)) -> "k" ∉ (keys 3000 store_k1).1) /\
   gone (keys 3000 store_k1).2).
Proof.
  apply (C3_expired_reads_clean_up store_k1 "k" (mkTokenRecord "v" 2000 1000) 3000).
  - reflexivity.
  - simpl. lia.
Defined.

(** C6. [getTtl] returns [Math.ceil((expiresAt - now) / 1000)], a
    non-negative number of whole seconds, and changes nothing, when the
    key has a record with [expiresAt - now > 0]; with [expiresAt - now <= 0]
    it returns null and the record and its handle are destroyed; for a key
    without record it returns null and changes nothing. *)
Theorem C6_getTtl_ceiling (w : Store) (key : string) (now : Z) :
  (forall rec, JsMap.get key (map w) = Some rec -> 0 < expiresAt rec - now ->
     let n := ceil_div (expiresAt rec - now) 1000 in
     getTtl key now w = (Some n, w) /\ 0 <= n /\
     1000 * (n - 1) < expiresAt rec - now <= 1000 * n) /\
  (forall rec, JsMap.get key (map w) = Some rec -> expiresAt rec - now <= 0 ->
     (getTtl key now w).1 = None /\
     Cleaned key (JsMap.get key (timers w)) (getTtl key now w).2) /\
  (JsMap.get key (map w) = None -> getTtl key now w = (None, w)).
Proof.
  split; [|split].
  - intros rec Hrec Hpos. cbv zeta. unfold getTtl. rewrite Hrec. cbv zeta.
    rewrite Z.max_r by lia.
    assert ((expiresAt rec - now =? 0) = false) as -> by (apply Z.eqb_neq; lia).
    pose proof (ceil_div_spec (expiresAt rec - now) 1000 ltac:(lia)).
    repeat split; lia.
  - intros rec Hrec Hexp.
    apply (getTtl_expired w key rec now Hrec). lia.
  - intros Hnone. unfold getTtl. by rewrite Hnone.
Qed.

(** A 60-second token asked 500 ms after the insert has 60 seconds left,
    asked 61 seconds after it has none, and an unknown key has none. *)
Lemma C6_getTtl_ceiling_witness :
  getTtl "k" 1500 store_k60 = (Some 60, store_k60) /\
  (getTtl "k" 62000 store_k60).1 = None /\
  getTtl "other" 1500 store_k60 = (None, store_k60).
Proof.
  pose proof (C6_getTtl_ceiling store_k60 "k" 1500) as (Hlive & _ & _).
  pose proof (C6_getTtl_ceiling store_k60 "k" 62000) as (_ & Hdead & _).
  pose proof (C6_getTtl_ceiling store_k60 "other" 1500) as (_ & _ & Hnone).
  split; [|split].
  - exact (proj1 (Hlive (mkTokenRecord "v" 61000 1000) eq_refl eq_refl)).
  - refine (proj1 (Hdead (mkTokenRecord "v" 61000 1000) eq_refl _)). by vm_compute.
  - exact (Hnone eq_refl).
Defined.

(** *** The timer path *)

(** C1. The timer path never destroys a record before its [expiresAt]:
    a callback that removes a record has read the clock at or after that
    record's [expiresAt]; so whatever timers fire, and however early, a
    record whose [expiresAt] lies after every clock reading of those
    callbacks is still there afterwards.  So after a completed [set] with any lifetime, also one
    beyond the single-segment bound of [2^31-1] ms, the armed segment is
    [min(remaining, 2^31-1)] ms (within the range the runtime takes as it
    is), and as long as the deadline is ahead [get] returns the token and
    [getTtl] returns the lifetime less the seconds elapsed, not a value
    near zero. *)
Theorem C1_timer_never_reclaims_early :
  (forall (w : Store) (t : handle) (now2 now : Z) (w' : Store)
          (k : string) (rec : TokenRecord),
     fire t now2 now w = Some w' ->
     JsMap.get k (map w) = Some rec ->
     JsMap.get k (map w') <> Some rec ->
     expiresAt rec <= now2 \/ expiresAt rec <= now) /\
  (forall (w : Store) (k : string) (rec : TokenRecord) fires (w' : Store),
     JsMap.get k (map w) = Some rec ->
     before (expiresAt rec) fires ->
     fire_all fires w = Some w' ->
     JsMap.get k (map w') = Some rec) /\
  (forall (w0 : Store) (key token : string) (ttl now now' : Z) (w : Store)
          fires (w' : Store) (g : Z),
     set key token (Some ttl) now now' w0 = Return tt w ->
     now' < now + ttl * 1000 ->
     before (now + ttl * 1000) fires ->
     fire_all fires w = Some w' ->
     now <= g < now + ttl * 1000 ->
     let rec := mkTokenRecord token (now + ttl * 1000) now in
     let n := ceil_div (now + ttl * 1000 - g) 1000 in
     (exists tm, Armed key rec tm w /\
        delay tm = Z.min (now + ttl * 1000 - now') MAX_TIMEOUT_MS /\
        node_delay (delay tm) = delay tm /\ 1 <= delay tm <= MAX_TIMEOUT_MS) /\
     JsMap.get key (map w') = Some rec /\
     (get key g w').1 = Some token /\
     (getTtl key g w').1 = Some n /\
     n <= ttl /\ 1000 * (ttl - n) <= g - now).
Proof.
  split; [|split].
  - intros w t now2 now w' k rec Hf Hrec Hlost.
    destruct (Z_le_gt_dec (expiresAt rec) now2) as [?|H2]; [by left|].
    destruct (Z_le_gt_dec (expiresAt rec) now) as [?|H1]; [by right|].
    exfalso. apply Hlost. eapply fire_keeps_record; [done | done | lia | lia].
  - intros w k rec fires w'. apply fire_all_keeps_record.
  - intros w0 key token ttl now now' w fires w' g Hset Hnow Hfires Hrun Hg rec n.
    pose proof (set_Armed _ _ _ _ _ _ _ Hset) as HA. simpl in HA.
    specialize (HA ltac:(lia)). fold rec in HA.
    assert (JsMap.get key (map w') = Some rec) as Hrec.
    { eapply fire_all_keeps_record; [apply HA | done | done]. }
    split; [|split; [done|split; [|split]]].
    + eexists. split; [exact HA|]. simpl. split; [done|].
      split; [apply node_delay_segment; lia | unfold MAX_TIMEOUT_MS; lia].
    + apply (get_live _ _ _ _ Hrec). simpl. lia.
    + rewrite (getTtl_live _ _ _ _ Hrec) by (simpl; lia). done.
    + pose proof (ceil_div_spec (now + ttl * 1000 - g) 1000 ltac:(lia)). subst n. lia.
Qed.

(** Thirty days: the first segment is [2^31-1] ms; even if the runtime
    fired it after one millisecond, the token is still returned and
    [getTtl] still says 30 days. *)
Lemma C1_timer_never_reclaims_early_witness :
  set "k" "v" (Some 2592000) 1000 1000 store0 = Return tt store_30d /\
  (exists w', fire_all [(0%nat, 1001, 1001)] store_30d = Some w' /\
     JsMap.get "k" (map w') = Some (mkTokenRecord "v" 2592001000 1000) /\
     (get "k" 1001 w').1 = Some "v" /\
     (getTtl "k" 1001 w').1 = Some 2592000).
Proof.
  split; [reflexivity|].
  eexists. split; [reflexivity|].
  pose proof (proj2 (proj2 C1_timer_never_reclaims_early)
                store0 "k" "v" 2592000 1000 1000 store_30d
                [(0%nat, 1001, 1001)] _ 1001
                eq_refl ltac:(lia)
                ltac:(repeat constructor; simpl; lia)
                eq_refl ltac:(lia)) as (_ & Hrec & Hget & Httl & _).
  exact (conj Hrec (conj Hget Httl)).
Defined.

(** C4 (as amended). [get] returns the token exactly when the key has a
    record with [expiresAt > now] and returns null in every other case,
    without changing anything for a key that has no record; it throws
    nothing.  Whenever [set] with a lifetime [t > 0] completes, that is,
    does not throw the size-limit error, a [get] that follows before the
    lifetime has elapsed returns the token just stored. *)
Theorem C4_get_round_trip :
  (forall (w : Store) (key : string) (now : Z) (v : string),
     (get key now w).1 = Some v <->
     exists rec, JsMap.get key (map w) = Some rec /\ now < expiresAt rec /\ token rec = v) /\
  (forall (w : Store) (key : string) (now : Z),
     (~ exists rec, JsMap.get key (map w) = Some rec /\ now < expiresAt rec) ->
     (get key now w).1 = None) /\
  (forall (w : Store) (key : string) (now : Z),
     JsMap.get key (map w) = None -> get key now w = (None, w)) /\
  (forall (w : Store) (key token : string) (ttlSeconds : option Z) (now now' g : Z) (w' : Store),
     let ttl := nullish ttlSeconds (defaultTtl (options w)) in
     0 < ttl ->
     set key token ttlSeconds now now' w = Return tt w' ->
     now' < now + ttl * 1000 -> g < now + ttl * 1000 ->
     (get key g w').1 = Some token).
Proof.
  split; [|split; [|split]].
  - intros w key now v. unfold get.
    destruct (JsMap.get key (map w)) as [rec|] eqn:Hrec.
    + destruct (Z.leb_spec (expiresAt rec) now) as [Hexp|Hlive]; simpl.
      * split; [done|]. intros (r & [= <-] & ? & _). lia.
      * split; [intros [= <-]; by exists rec | by intros (r & [= <-] & _ & ->)].
    + simpl. split; [done | by intros (r & [=] & _)].
  - intros w key now Hno. unfold get.
    destruct (JsMap.get key (map w)) as [rec|] eqn:Hrec; [|done].
    destruct (Z.leb_spec (expiresAt rec) now) as [Hexp|Hlive]; simpl; [done|].
    exfalso. apply Hno. by exists rec.
  - intros w key now Hnone. unfold get. by rewrite Hnone.
  - intros w key token ttlSeconds now now' g w' ttl Hpos Hset Hnow Hg.
    pose proof (set_Armed _ _ _ _ _ _ _ Hset Hnow) as (Hrec & _).
    by apply (get_live _ _ _ _ Hrec).
Qed.

(** [set] with 60 seconds on an empty store, then [get] at the same
    instant. *)
Lemma C4_get_round_trip_witness : (get "k" 1000 store_k60).1 = Some "v".
Proof.
  apply (proj2 (proj2 (proj2 C4_get_round_trip))
           store0 "k" "v" (Some 60) 1000 1000 1000 store_k60).
  - simpl. lia.
  - reflexivity.
  - simpl. lia.
  - simpl. lia.
Defined.

(** On a store that is full, [set] of a new key throws, and the [get]
    that follows finds nothing. *)
Lemma C4_round_trip_counterexample :
  0 < 60 /\
  set "b" "v" (Some 60) 0 0 full_store = Throw (SizeLimitExceeded 1) full_store /\
  (get "b" 0 full_store).1 = None.
Proof. split; [lia | by vm_compute]. Qed.

(** C2. After an insert or an extend of [k] with lifetime [ttl] seconds
    that nothing overwrites, extends or deletes, the chain of timer
    segments of [k] ends: when the runtime fires each segment no earlier
    than its delay asks for, at most [ceil(ttl * 1000 / MAX_TIMEOUT_MS)]
    segments fire (so no more re-schedulings than that happen); while a
    segment is armed its delay is [min(remaining, 2^31-1)] and it can fire;
    once none is armed the record has been reclaimed; and the chain can
    always be run on to that end. *)
Theorem C2_segment_chain_terminates
    (w0 : Store) (k : string) (ttl now now' : Z) (w : Store)
    (evs : list (Z * Z)) (w' : Store)
    (Hstart : starts_lifetime k ttl now now' w0 w)
    (Hclock : now <= now')
    (Hchain : fire_chain k evs w = Some w') :
  (length evs <= Z.to_nat (ceil_div (ttl * 1000) MAX_TIMEOUT_MS))%nat /\
  ((JsMap.get k (map w') = None /\ JsMap.get k (timers w') = None)
   \/
   (exists rec tm,
      Armed k rec tm w' /\
      expiresAt rec = now + ttl * 1000 /\
      delay tm = Z.min (expiresAt rec - armed_at tm) MAX_TIMEOUT_MS /\
      forall now2 n, due tm now2 = true -> now2 <= n ->
        exists w'', fire_chain k [(now2, n)] w' = Some w'')) /\
  (exists evs2 w2,
     fire_chain k (evs ++ evs2) w = Some w2 /\
     JsMap.get k (map w2) = None /\ JsMap.get k (timers w2) = None).
Proof.
  assert (0 < MAX_TIMEOUT_MS) as HM by done.
  destruct (starts_lifetime_state _ _ _ _ _ _ Hstart)
    as [(Hpast & Hm & Hg)|(Hahead & rec & He & HA)].
  - destruct (fire_chain_gone _ _ _ _ Hg Hchain) as [-> ->]. simpl.
    split; [lia|]. split; [by left|]. by exists [], w.
  - destruct (fire_chain_bound _ _ _ _ _ _ HA Hchain) as [Hlen Hend]. simpl in Hlen.
    split; [|split].
    + pose proof (ceil_div_mono (expiresAt rec - now') (ttl * 1000) MAX_TIMEOUT_MS HM
                    ltac:(lia)). lia.
    + destruct Hend as [Hgone|[tm' HA']]; [by left | right].
      exists rec, tm'. split; [done|]. split; [done|].
      split; [apply HA'|].
      intros now2 n Hdue Hmono. simpl.
      destruct HA' as (_ & (t & Ht & Htm) & _). rewrite Ht, Htm, Hdue.
      apply Z.leb_le in Hmono. rewrite Hmono. simpl.
      unfold fire. rewrite Htm. by eexists.
    + destruct Hend as [Hgone|[tm' HA']].
      * exists [], w'. by rewrite app_nil_r.
      * destruct (fire_chain_completes k rec
                    (Z.to_nat (ceil_div (expiresAt rec - armed_at tm') MAX_TIMEOUT_MS))
                    w' tm' HA' ltac:(lia)) as (evs2 & w2 & Hc2 & Hgone).
        exists evs2, w2. by rewrite fire_chain_app, Hchain.
Qed.

(** Thirty days take two segments: the first fires after [2^31-1] ms
    and re-schedules, the second fires at the deadline and reclaims. *)
Lemma C2_segment_chain_terminates_witness :
  let evs := [(2147484647, 2147484647); (2592001000, 2592001000)] in
  exists w',
    fire_chain "k" evs store_30d = Some w' /\
    (length evs <= Z.to_nat (ceil_div (2592000 * 1000) MAX_TIMEOUT_MS))%nat /\
    JsMap.get "k" (map w') = None /\ JsMap.get "k" (timers w') = None.
Proof.
  cbv zeta. eexists. split; [reflexivity|].
  split.
  - refine (proj1 (C2_segment_chain_terminates store0 "k" 2592000 1000 1000 store_30d
                     [(2147484647, 2147484647); (2592001000, 2592001000)] _ _ _ eq_refl)).
    + left. exists "v", (Some 2592000). split; reflexivity.
    + lia.
  - split; reflexivity.
Defined.

(** *** Extending a lifetime *)

(** C7 (as amended). [updateTtl] on a key without record returns false
    and changes nothing.  On a key with a record it returns true; when the
    new deadline [now + t * 1000] is still ahead at the moment the expiry
    is re-scheduled (so for every [t > 0] while no time passes) the record
    keeps its token and [createdAt] and gets that deadline as [expiresAt].
    In every case the records and handles of all other keys, and in a
    consistent store their armed timers, stay as they were.  After a
    completed [set] with 60 seconds and an [updateTtl] with 120, [getTtl]
    asked less than five seconds later lies in (115, 120]. *)
Theorem C7_updateTtl_extends :
  (forall (w : Store) (key : string) (ttl now now' : Z),
     JsMap.get key (map w) = None -> updateTtl key ttl now now' w = (false, w)) /\
  (forall (w : Store) (key : string) (ttl now now' : Z) (rec : TokenRecord),
     JsMap.get key (map w) = Some rec ->
     (updateTtl key ttl now now' w).1 = true /\
     (now' < now + ttl * 1000 ->
      JsMap.get key (map (updateTtl key ttl now now' w).2) =
        Some (mkTokenRecord (token rec) (now + ttl * 1000) (createdAt rec)))) /\
  (forall (w : Store) (key : string) (ttl now now' : Z) (k' : string),
     k' <> key ->
     let w' := (updateTtl key ttl now now' w).2 in
     JsMap.get k' (map w') = JsMap.get k' (map w) /\
     JsMap.get k' (timers w') = JsMap.get k' (timers w) /\
     (Inv w -> forall t, JsMap.get k' (timers w) = Some t -> loop w' !! t = loop w !! t)) /\
  (forall (w0 : Store) (key token : string) (now0 now0' : Z) (w1 : Store) (now1 now1' g : Z),
     set key token (Some 60) now0 now0' w0 = Return tt w1 ->
     now0' < now0 + 60 * 1000 ->
     now1' < now1 + 120 * 1000 ->
     now1 <= g < now1 + 5000 ->
     (updateTtl key 120 now1 now1' w1).1 = true /\
     exists n, (getTtl key g (updateTtl key 120 now1 now1' w1).2).1 = Some n /\ 115 < n <= 120).
Proof.
  split; [|split; [|split]].
  - intros w key ttl now now'. apply updateTtl_absent.
  - intros w key ttl now now' rec Hrec.
    rewrite (updateTtl_present _ _ _ _ _ _ Hrec). simpl. split; [done|].
    intros Hahead. rewrite map_log_if, scheduleExpiry_keeps by lia. simpl.
    apply get_set_eq.
  - intros w key ttl now now' k' Hk'. cbv zeta.
    destruct (JsMap.get key (map w)) as [rec|] eqn:Hrec.
    2:{ by rewrite updateTtl_absent. }
    rewrite (updateTtl_present _ _ _ _ _ _ Hrec). simpl.
    rewrite map_log_if, timers_log_if, loop_log_if.
    destruct (scheduleExpiry_frame key (now + ttl * 1000) now'
                (with_map (JsMap.set key
                   (mkTokenRecord (token rec) (now + ttl * 1000) (createdAt rec))) w)
                k' Hk') as [-> ->]. simpl.
    split; [by apply get_set_ne, not_eq_sym|]. split; [done|].
    intros HI t Ht. rewrite scheduleExpiry_loop_frame; simpl.
    + done.
    + intros Hreg. destruct (inv_live w HI _ _ Ht) as (tm & Htm & Hcb).
      destruct (inv_live w HI _ _ Hreg) as (tm' & Htm' & Hcb'). congruence.
    + intros ->. destruct (inv_live w HI _ _ Ht) as (tm & Htm & _).
      assert (next_handle w < next_handle w)%nat; [|lia].
      apply (inv_fresh w HI). by eexists.
  - intros w0 key token now0 now0' w1 now1 now1' g Hset H0 H1 Hg.
    pose proof (set_Armed _ _ _ _ _ _ _ Hset H0) as (Hrec & _). simpl in Hrec.
    rewrite (updateTtl_present _ _ _ _ _ _ Hrec). simpl. split; [done|].
    eexists. rewrite (getTtl_live _ key (mkTokenRecord token (now1 + 120 * 1000) now0)).
    + simpl. split; [done|].
      pose proof (ceil_div_spec (now1 + 120 * 1000 - g) 1000 ltac:(lia)). lia.
    + rewrite map_log_if, scheduleExpiry_keeps by lia. simpl. apply get_set_eq.
    + simpl. lia.
Qed.

(** The extend example of the specification, two seconds after the
    insert and asked at once. *)
Lemma C7_updateTtl_extends_witness :
  (updateTtl "k" 120 3000 3000 store_k60).1 = true /\
  (exists n, (getTtl "k" 3000 (updateTtl "k" 120 3000 3000 store_k60).2).1 = Some n /\
     115 < n <= 120) /\
  updateTtl "other" 120 3000 3000 store_k60 = (false, store_k60).
Proof.
  destruct C7_updateTtl_extends as (Habsent & _ & _ & Hex).
  destruct (Hex store0 "k" "v" 1000 1000 store_k60 3000 3000 3000 eq_refl
              ltac:(lia) ltac:(lia) ltac:(lia)) as [Htrue Hn].
  exact (conj Htrue (conj Hn (Habsent store_k60 "other" 120 3000 3000 eq_refl))).
Defined.

(** [updateTtl] with lifetime 0 on a key that has a record: it returns
    true and the record is gone, no [expiresAt] has been replaced. *)
Lemma C7_updateTtl_counterexample :
  JsMap.get "k" (map store_k60) = Some (mkTokenRecord "v" 61000 1000) /\
  (updateTtl "k" 0 2000 2000 store_k60).1 = true /\
  JsMap.get "k" (map (updateTtl "k" 0 2000 2000 store_k60).2) = None.
Proof. by vm_compute. Qed.

(** *** Zero and negative lifetimes *)

(** C9 (as amended). A lifetime [t <= 0] makes [scheduleExpiry] remove
    the key at once and arm no timer.  So [set] with [t <= 0], when it
    passes the capacity check (the key has a record or the store is below
    [maxSize]), completes and leaves the key out of both mappings, and
    [updateTtl] with [t <= 0] on a key that has a record returns true and
    leaves the key out of both mappings. *)
Theorem C9_nonpositive_lifetime :
  (forall (w : Store) (key : string) (e now : Z),
     e - now <= 0 ->
     JsMap.get key (map (scheduleExpiry key e now w)) = None /\
     JsMap.get key (timers (scheduleExpiry key e now w)) = None /\
     next_handle (scheduleExpiry key e now w) = next_handle w /\
     loop (scheduleExpiry key e now w) ⊆ loop w) /\
  (forall (w : Store) (key token : string) (ttl now now' : Z),
     ttl <= 0 -> now <= now' ->
     is_Some (JsMap.get key (map w)) \/ JsMap.size (map w) < maxSize (options w) ->
     exists w',
       set key token (Some ttl) now now' w = Return tt w' /\
       JsMap.get key (map w') = None /\ JsMap.get key (timers w') = None /\
       next_handle w' = next_handle w /\ loop w' ⊆ loop w) /\
  (forall (w : Store) (key : string) (ttl now now' : Z) (rec : TokenRecord),
     ttl <= 0 -> now <= now' ->
     JsMap.get key (map w) = Some rec ->
     let w' := (updateTtl key ttl now now' w).2 in
     (updateTtl key ttl now now' w).1 = true /\
     JsMap.get key (map w') = None /\ JsMap.get key (timers w') = None /\
     next_handle w' = next_handle w /\ loop w' ⊆ loop w).
Proof.
  split; [|split].
  - intros w key e now. apply scheduleExpiry_no_timer.
  - intros w key token ttl now now' Httl Hclock Hcap.
    destruct (set_cases key token (Some ttl) now now' w) as [(Hk & Hsz & _)|[_ Hs]].
    { destruct Hcap as [Hs|?]; [|lia]. rewrite Hk in Hs. by destruct Hs. }
    eexists. split; [exact Hs|]. simpl.
    rewrite map_log_if, timers_log_if, loop_log_if, next_handle_log_if.
    apply (scheduleExpiry_no_timer key (now + ttl * 1000) now'
             (with_map (JsMap.set key (mkTokenRecord token (now + ttl * 1000) now)) w)).
    lia.
  - intros w key ttl now now' rec Httl Hclock Hrec. cbv zeta.
    rewrite (updateTtl_present _ _ _ _ _ _ Hrec). simpl. split; [done|].
    rewrite map_log_if, timers_log_if, loop_log_if, next_handle_log_if.
    apply (scheduleExpiry_no_timer key (now + ttl * 1000) now'
             (with_map (JsMap.set key
                (mkTokenRecord (token rec) (now + ttl * 1000) (createdAt rec))) w)).
    lia.
Qed.

(** Lifetime 0 on an empty store, and lifetime -5 for a key that has a
    record. *)
Lemma C9_nonpositive_lifetime_witness :
  (exists w', set "k" "v" (Some 0) 1000 1000 store0 = Return tt w' /\
     JsMap.get "k" (map w') = None /\ JsMap.get "k" (timers w') = None) /\
  (updateTtl "k" (-5) 2000 2000 store_k60).1 = true /\
  JsMap.get "k" (map (updateTtl "k" (-5) 2000 2000 store_k60).2) = None /\
  JsMap.get "k" (timers (updateTtl "k" (-5) 2000 2000 store_k60).2) = None.
Proof.
  destruct C9_nonpositive_lifetime as (_ & Hset & Hupd).
  destruct (Hset store0 "k" "v" 0 1000 1000 ltac:(lia) ltac:(lia)
              ltac:(right; by vm_compute)) as (w' & Hs & Hm & Ht & _).
  destruct (Hupd store_k60 "k" (-5) 2000 2000 (mkTokenRecord "v" 61000 1000)
              ltac:(lia) ltac:(lia) eq_refl) as (Htrue & Hm' & Ht' & _).
  split; [by exists w'|]. exact (conj Htrue (conj Hm' Ht')).
Defined.

(** On a full store [set] of a new key with lifetime 0 does not complete:
    it throws the size-limit error. *)
Lemma C9_nonpositive_counterexample :
  0 <= 0 /\
  set "b" "v" (Some 0) 0 0 full_store = Throw (SizeLimitExceeded 1) full_store.
Proof. split; [lia | by vm_compute]. Qed.

(** *** The two mappings stay in step *)

(** C8. Whatever sequence of public methods and timer callbacks has run
    since the constructor, the record mapping and the handle mapping have
    the same keys, each key once; the handle of every key is an armed timer
    whose callback is for that key; and every armed timer is the one
    registered for its key, which has a record. *)
Theorem C8_mappings_in_step (o : TokenStoreOptions) (ops : list Op) :
  let w := run ops (new o) in
  JsMap.dom (map w) = JsMap.dom (timers w) /\
  NoDup (JsMap.key_list (map w)) /\ NoDup (JsMap.key_list (timers w)) /\
  (forall k, is_Some (JsMap.get k (map w)) ->
     exists t tm, JsMap.get k (timers w) = Some t /\ loop w !! t = Some tm /\ cb_key tm = k) /\
  (forall t tm, loop w !! t = Some tm ->
     JsMap.get (cb_key tm) (timers w) = Some t /\
     is_Some (JsMap.get (cb_key tm) (map w))) /\
  stat_size (getStats w) = pendingCleanups (getStats w).
Proof.
  cbv zeta. pose proof (Inv_run ops (new o) (Inv_new o)) as HI.
  set (w := run ops (new o)) in *.
  destruct HI as [Hd Hl Ho Hf Hm Ht].
  split; [|split; [done|split; [done|split; [|split]]]].
  - apply set_eq. intros k. rewrite !elem_of_dom. apply Hd.
  - intros k Hk. apply Hd in Hk as [t Hk]. destruct (Hl _ _ Hk) as (tm & Htm & Hcb).
    by exists t, tm.
  - intros t tm Htm. split; [by apply Ho|]. apply Hd. rewrite (Ho _ _ Htm). by eexists.
  - simpl. unfold JsMap.size.
    assert (JsMap.key_list (map w) ≡ₚ JsMap.key_list (timers w)) as Hp.
    { apply NoDup_Permutation; [done | done |].
      intros k. split; intros Hin.
      - destruct (decide (k ∈ JsMap.key_list (timers w))) as [|Hn]; [done|].
        apply get_None_keys in Hn.
        destruct (decide (k ∈ JsMap.key_list (map w))) as [Hi|Hi]; [|done].
        assert (is_Some (JsMap.get k (map w))) as Hs.
        { destruct (JsMap.get k (map w)) eqn:E; [by eexists|].
          by apply get_None_keys in E. }
        apply Hd in Hs. rewrite Hn in Hs. by destruct Hs.
      - destruct (decide (k ∈ JsMap.key_list (map w))) as [|Hn]; [done|].
        apply get_None_keys in Hn.
        assert (is_Some (JsMap.get k (timers w))) as Hs.
        { destruct (JsMap.get k (timers w)) eqn:E; [by eexists|].
          by apply get_None_keys in E. }
        apply Hd in Hs. rewrite Hn in Hs. by destruct Hs. }
    apply Permutation_length in Hp. unfold JsMap.key_list in Hp.
    rewrite !length_fmap in Hp. by rewrite Hp.
Qed.

(** A run with an insert, an early timer firing, an expired read and a
    zero-lifetime extend. *)
Lemma C8_mappings_in_step_witness :
  let w := run [OpSet "a" "1" (Some 60) 0 0; OpSet "b" "2" (Some 1) 0 0;
                OpFire 0%nat 5 5; OpGet "b" 2000; OpUpdateTtl "a" 0 3000 3000;
                OpSet "c" "3" None 4000 4000] store0 in
  JsMap.dom (map w) = JsMap.dom (timers w) /\
  JsMap.key_list (map w) = ["c"] /\
  stat_size (getStats w) = pendingCleanups (getStats w).
Proof.
  cbv zeta.
  pose proof (C8_mappings_in_step no_options
                [OpSet "a" "1" (Some 60) 0 0; OpSet "b" "2" (Some 1) 0 0;
                 OpFire 0%nat 5 5; OpGet "b" 2000; OpUpdateTtl "a" 0 3000 3000;
                 OpSet "c" "3" None 4000 4000]) as (Hdom & _ & _ & _ & _ & Hstat).
  exact (conj Hdom (conj eq_refl Hstat)).
Defined.

End claims.


(** ** Further effects of the methods *)

Section more_effects.
Import JsMapFacts.
Implicit Types (w : Store) (k key : string) (h t : handle).

(** In a consistent store, cancelling the handle of one key leaves the
    timers of the other keys armed. *)
Lemma cancel_existing_loop_frame key w k' t :
  Inv w -> k' <> key -> JsMap.get k' (timers w) = Some t ->
  loop (cancel_existing key w) !! t = loop w !! t.
Proof.
  intros HI Hk Ht. rewrite cancel_existing_loop.
  destruct (JsMap.get key (timers w)) as [t0|] eqn:Hreg; [|done].
  apply lookup_delete_ne. intros ->.
  destruct (inv_live w HI _ _ Ht) as (tm & Htm & Hcb).
  destruct (inv_live w HI _ _ Hreg) as (tm' & Htm' & Hcb'). congruence.
Qed.

Lemma delete_loop key w : loop (delete key w).2 = loop (cancel_existing key w).
Proof. by rewrite delete_state, loop_log_if. Qed.

Lemma delete_options key w : options (delete key w).2 = options w.
Proof. rewrite delete_state, options_log_if. simpl. apply cancel_existing_options. Qed.

Lemma delete_next_handle key w : next_handle (delete key w).2 = next_handle w.
Proof. rewrite delete_state, next_handle_log_if. simpl. apply cancel_existing_next. Qed.

(** Deleting a key that is in neither mapping changes nothing at all. *)
Lemma delete_absent_id key w :
  JsMap.get key (map w) = None -> JsMap.get key (timers w) = None ->
  delete key w = (false, w).
Proof.
  intros Hm Ht. unfold delete. simpl. rewrite Ht.
  apply has_false in Hm as Hhas. rewrite Hhas, andb_false_r. simpl.
  unfold with_map. rewrite (delete_absent _ _ Hm). by destruct w.
Qed.

(** *** [clear] *)

Lemma clear_fields w :
  map (clear w) = JsMap.empty /\ timers (clear w) = JsMap.empty /\
  options (clear w) = options w /\ next_handle (clear w) = next_handle w /\
  forall t, loop (clear w) !! t =
    if decide (t ∈ JsMap.values (timers w)) then None else loop w !! t.
Proof.
  unfold clear. cbv zeta.
  rewrite map_log_if, timers_log_if, options_log_if, next_handle_log_if, loop_log_if. simpl.
  destruct (clearTimeout_all (JsMap.values (timers w)) w) as (_ & _ & Hop & Hn & _ & Hl).
  done.
Qed.

Lemma clear_loop_empty w : Inv w -> loop (clear w) = ∅.
Proof.
  intros HI. destruct (clear_fields w) as (_ & _ & _ & _ & Hl).
  apply map_eq. intros t. rewrite Hl, lookup_empty.
  case_decide as Hin; [done|].
  destruct (loop w !! t) as [tm|] eqn:Htm; [|done].
  exfalso. apply Hin. eapply get_Some_values, (inv_owned w HI), Htm.
Qed.

(** *** [keys] *)

Lemma delete_filter {V : Type} k (m : list (string * V)) :
  JsMap.delete k m = filter (fun e => e.1 <> k) m.
Proof.
  induction m as [|[k0 v0] m IH]; simpl; [done|].
  case_decide as Hk.
  - rewrite filter_cons_False by (simpl; intros Hn; by apply Hn). done.
  - rewrite filter_cons_True by done. by rewrite IH.
Qed.

Lemma filter_ext_in {A : Type} (P Q : A -> Prop)
    `{!forall x, Decision (P x), !forall x, Decision (Q x)} (l : list A) :
  (forall x, x ∈ l -> (P x <-> Q x)) -> filter P l = filter Q l.
Proof.
  induction l as [|a l IH]; intros Hext; [done|].
  rewrite !filter_cons.
  assert (filter P l = filter Q l) as ->
    by (apply IH; intros x Hx; apply Hext; by apply list_elem_of_further).
  destruct (decide (P a)) as [HP|HP].
  - rewrite decide_True; [done|]. apply Hext; [apply list_elem_of_here | done].
  - rewrite decide_False; [done|]. intros HQ. apply HP, Hext; [apply list_elem_of_here | done].
Qed.

Lemma filter_all {A : Type} (P : A -> Prop) `{!forall x, Decision (P x)} (l : list A) :
  Forall P l -> filter P l = l.
Proof.
  induction l as [|a l IH]; intros Hall; [done|].
  apply Forall_cons in Hall as [Ha Hall]. rewrite filter_cons_True by done.
  by rewrite IH.
Qed.

Lemma delete_map key w : map (delete key w).2 = JsMap.delete key (map w).
Proof. rewrite delete_state, map_log_if. simpl. by rewrite cancel_existing_map. Qed.

Lemma delete_timers key w : timers (delete key w).2 = JsMap.delete key (timers w).
Proof. rewrite delete_state, timers_log_if. simpl. by rewrite cancel_existing_timers. Qed.

Lemma keys_fold_cons now key r es vs w :
  fold_left (keys_step now) ((key, r) :: es) (vs, w) =
    fold_left (keys_step now) es
      (if now <? expiresAt r then (vs ++ [key], w) else (vs, (delete key w).2)).
Proof. reflexivity. Qed.

(** The keys the loop of [keys] deletes. *)
Lemma keys_fold_map now es acc :
  let dead := (filter (fun e => ~ now < expiresAt e.2) es).*1 in
  map (fold_left (keys_step now) es acc).2 =
    filter (fun e => e.1 ∉ dead) (map acc.2 : list (string * TokenRecord)) /\
  forall k, JsMap.get k (timers (fold_left (keys_step now) es acc).2) =
    if decide (k ∈ dead) then None else JsMap.get k (timers acc.2).
Proof.
  cbv zeta. revert acc. induction es as [|[key r] es IH]; intros [vs w].
  - split.
    + symmetry. apply filter_all. apply Forall_forall. intros x _. apply not_elem_of_nil.
    + intros k. by rewrite decide_False by apply not_elem_of_nil.
  - rewrite keys_fold_cons.
    destruct (Z.ltb_spec now (expiresAt r)) as [Hlive|Hdead].
    + rewrite filter_cons_False by (simpl; intros Hn; by apply Hn).
      exact (IH (vs ++ [key], w)).
    + rewrite filter_cons_True by (simpl; lia). rewrite fmap_cons.
      destruct (IH (vs, (delete key w).2)) as [Hm Ht].
      change ((vs, (delete key w).2).2) with (delete key w).2 in Hm, Ht.
      change ((vs, w).2) with w. change ((key, r).1) with key.
      split.
      * rewrite Hm, delete_map, delete_filter, list_filter_filter.
        apply list_filter_iff. intros [k0 v0]. cbn [fst].
        rewrite not_elem_of_cons. tauto.
      * intros k. rewrite Ht, delete_timers, get_delete.
        destruct (decide (k = key)) as [->|Hne].
        -- rewrite (decide_True (P := key ∈ key :: _)) by apply list_elem_of_here.
           case_decide; [done|]. by rewrite decide_True.
        -- rewrite (decide_False (P := key = k)) by done.
           destruct (decide (k ∈ _)) as [Hin|Hin].
           ++ rewrite decide_True; [done | by apply list_elem_of_further].
           ++ rewrite decide_False; [done|].
              intros Hc. apply elem_of_cons in Hc as [?|?]; done.
Qed.

(** With each key once, the deleted keys are those of the expired
    entries and of no others. *)
Lemma dead_keys_NoDup now (m : JsMap.t TokenRecord) e :
  NoDup (JsMap.key_list m) -> e ∈ m ->
  (e.1 ∉ (filter (fun e => ~ now < expiresAt e.2) m).*1 <-> now < expiresAt e.2).
Proof.
  intros Hnd He. split.
  - intros Hnot. destruct (decide (now < expiresAt e.2)) as [|Hd]; [done|].
    exfalso. apply Hnot. apply list_elem_of_fmap. exists e. split; [done|].
    by apply list_elem_of_filter.
  - intros Hlive Hin. apply list_elem_of_fmap in Hin as (e' & Hk & Hin).
    apply list_elem_of_filter in Hin as [Hdead Hin'].
    destruct e as [k v], e' as [k' v']. simpl in *. subst k'.
    pose proof (elem_get_NoDup m k v Hnd He) as H1.
    pose proof (elem_get_NoDup m k v' Hnd Hin') as H2.
    rewrite H1 in H2. injection H2 as <-. done.
Qed.

(** Nothing to delete: the loop of [keys] returns every key and leaves
    the state alone. *)
Lemma keys_fold_all_live now es vs w :
  Forall (fun e => now < expiresAt e.2) es ->
  fold_left (keys_step now) es (vs, w) = (vs ++ es.*1, w).
Proof.
  revert vs. induction es as [|[key r] es IH]; intros vs Hall; simpl.
  - by rewrite app_nil_r.
  - apply Forall_cons in Hall as [Hlive Hall]. simpl in Hlive.
    apply Z.ltb_lt in Hlive. rewrite Hlive. rewrite IH by done.
    by rewrite <- app_assoc.
Qed.


Lemma NoDup_fmap_fst_filter {V : Type} (P : string * V -> Prop)
    `{!forall x, Decision (P x)} (m : list (string * V)) :
  NoDup m.*1 -> NoDup (filter P m).*1.
Proof.
  induction m as [|[k v] m IH]; intros Hnd; [done|].
  rewrite fmap_cons in Hnd. apply NoDup_cons in Hnd as [Hk Hnd].
  rewrite filter_cons. destruct (decide (P (k, v))); [|by apply IH].
  rewrite fmap_cons. apply NoDup_cons. split; [|by apply IH].
  intros Hin. apply Hk. apply list_elem_of_fmap in Hin as (e & He & Hin).
  apply list_elem_of_filter in Hin as [_ Hin].
  apply list_elem_of_fmap. by exists e.
Qed.


(** *** The four single-key reads *)

Lemma has_after_read key now w : (has key now w).2 = after_read key now w.
Proof.
  unfold has, after_read. destruct (JsMap.get key (map w)) as [r|]; [|done].
  by destruct (expiresAt r <=? now).
Qed.

Lemma getMetadata_after_read key now w : (getMetadata key now w).2 = after_read key now w.
Proof.
  unfold getMetadata, after_read. destruct (JsMap.get key (map w)) as [r|]; [|done].
  by destruct (expiresAt r <=? now).
Qed.

Lemma getTtl_after_read key now w : (getTtl key now w).2 = after_read key now w.
Proof.
  unfold getTtl, after_read. destruct (JsMap.get key (map w)) as [r|]; [|done].
  cbv zeta. destruct (Z.leb_spec (expiresAt r) now) as [Hexp|Hlive].
  - by assert ((Z.max 0 (expiresAt r - now) =? 0) = true) as -> by (apply Z.eqb_eq; lia).
  - by assert ((Z.max 0 (expiresAt r - now) =? 0) = false) as -> by (apply Z.eqb_neq; lia).
Qed.

(** [get] leaves the same state up to the line it may log. *)
Lemma get_after_read key now w :
  (get key now w).2 = after_read key now w \/
  (get key now w).2 = console_log (LogRetrieved key) (after_read key now w).
Proof.
  unfold get, after_read. destruct (JsMap.get key (map w)) as [r|]; [|by left].
  destruct (expiresAt r <=? now); [by left|]. simpl.
  destruct (debug (options w)); [by right | by left].
Qed.

Lemma after_read_alive key now w : alive key now w -> after_read key now w = w.
Proof.
  intros (r & Hr & Hlive). unfold after_read. rewrite Hr.
  apply Z.leb_gt in Hlive. by rewrite Hlive.
Qed.

Lemma after_read_frame key now w k' :
  k' <> key ->
  JsMap.get k' (map (after_read key now w)) = JsMap.get k' (map w) /\
  JsMap.get k' (timers (after_read key now w)) = JsMap.get k' (timers w).
Proof.
  intros Hk. unfold after_read. destruct (JsMap.get key (map w)) as [r|]; [|done].
  destruct (expiresAt r <=? now); [by apply delete_frame | done].
Qed.


(** *** Options, entry count and console along a run *)

Lemma console_log_if b l w :
  console (log_if b l w) = console w ++ (if b then [l] else []).
Proof. destruct b; simpl; [done | by rewrite app_nil_r]. Qed.

Lemma scheduleExpiry_console key e now w : console (scheduleExpiry key e now w) = console w.
Proof.
  destruct (Z_le_gt_dec (e - now) 0) as [H|H].
  - rewrite scheduleExpiry_past by done. simpl. apply cancel_existing_console.
  - by rewrite scheduleExpiry_ahead by lia.
Qed.

Lemma delete_console key w :
  console (delete key w).2 =
    console w ++ (if debug (options w) && JsMap.has key (map w) then [LogDeleted key] else []).
Proof. rewrite delete_state, console_log_if. simpl. by rewrite cancel_existing_console. Qed.

Lemma on_timeout_options key now2 now w : options (on_timeout key now2 now w) = options w.
Proof.
  unfold on_timeout. destruct (JsMap.get key (map w)) as [r|]; [|done].
  destruct (expiresAt r <=? now2); [done | apply scheduleExpiry_options].
Qed.

(** A timer callback never writes to the console. *)
Lemma on_timeout_console key now2 now w : console (on_timeout key now2 now w) = console w.
Proof.
  unfold on_timeout. destruct (JsMap.get key (map w)) as [r|]; [|done].
  destruct (expiresAt r <=? now2); [done | apply scheduleExpiry_console].
Qed.

Lemma keys_fold_options now es acc :
  options (fold_left (keys_step now) es acc).2 = options acc.2.
Proof.
  revert acc. induction es as [|[key r] es IH]; intros [vs w]; [done|].
  rewrite keys_fold_cons. destruct (now <? expiresAt r); rewrite IH; [done|].
  apply delete_options.
Qed.

Lemma exec_options o w : options (exec o w) = options w.
Proof.
  destruct o as [key tok ttlSeconds now now'|key now|key|key now|key now|key now|key ttlSeconds now now'| |now| |t now2 now]; cbn [exec].
  - destruct (set_cases key tok ttlSeconds now now' w) as [(_ & _ & ->)|[_ ->]]; [done|].
    by rewrite options_log_if, scheduleExpiry_options.
  - destruct (get_after_read key now w) as [-> | ->]; simpl;
      unfold after_read; destruct (JsMap.get key (map w)) as [r|]; try done;
      destruct (expiresAt r <=? now); try done; apply delete_options.
  - apply delete_options.
  - rewrite has_after_read. unfold after_read.
    destruct (JsMap.get key (map w)) as [r|]; [|done].
    destruct (expiresAt r <=? now); [apply delete_options | done].
  - rewrite getMetadata_after_read. unfold after_read.
    destruct (JsMap.get key (map w)) as [r|]; [|done].
    destruct (expiresAt r <=? now); [apply delete_options | done].
  - rewrite getTtl_after_read. unfold after_read.
    destruct (JsMap.get key (map w)) as [r|]; [|done].
    destruct (expiresAt r <=? now); [apply delete_options | done].
  - destruct (JsMap.get key (map w)) as [r|] eqn:Hr.
    + rewrite (updateTtl_present _ _ _ _ _ _ Hr). simpl.
      by rewrite options_log_if, scheduleExpiry_options.
    + by rewrite updateTtl_absent.
  - by destruct (clear_fields w) as (_ & _ & ? & _).
  - apply (keys_fold_options now _ ([], w)).
  - done.
  - unfold fire. destruct (loop w !! t) as [tm|]; [|done]. simpl.
    by rewrite on_timeout_options.
Qed.

Lemma run_options ops w : options (run ops w) = options w.
Proof.
  revert w. induction ops as [|o ops IH]; intros w; simpl; [done|].
  by rewrite IH, exec_options.
Qed.

Lemma size_delete_le {V : Type} k (m : JsMap.t V) :
  JsMap.size (JsMap.delete k m) <= JsMap.size m.
Proof.
  unfold JsMap.size. induction m as [|[k0 v0] m IH]; simpl; [done|].
  case_decide; simpl; lia.
Qed.

Lemma scheduleExpiry_size key e now w :
  JsMap.size (map (scheduleExpiry key e now w)) <= JsMap.size (map w).
Proof.
  destruct (Z_le_gt_dec (e - now) 0) as [H|H].
  - rewrite scheduleExpiry_past by done. simpl. rewrite cancel_existing_map.
    apply size_delete_le.
  - rewrite scheduleExpiry_ahead by lia. simpl. lia.
Qed.

Lemma after_read_size key now w :
  JsMap.size (map (after_read key now w)) <= JsMap.size (map w).
Proof.
  unfold after_read. destruct (JsMap.get key (map w)) as [r|]; [|lia].
  destruct (expiresAt r <=? now); [|lia]. rewrite delete_map. apply size_delete_le.
Qed.

Lemma keys_fold_size now es acc :
  JsMap.size (map (fold_left (keys_step now) es acc).2) <= JsMap.size (map acc.2).
Proof.
  revert acc. induction es as [|[key r] es IH]; intros [vs w]; [simpl; lia|].
  rewrite keys_fold_cons. destruct (now <? expiresAt r).
  - apply (IH (vs ++ [key], w)).
  - etrans; [apply (IH (vs, (delete key w).2))|]. cbn [snd].
    rewrite delete_map. apply size_delete_le.
Qed.

(** No step lets the record mapping grow beyond [maxSize]. *)
Lemma exec_size_bounded o w :
  JsMap.size (map w) <= Z.max 0 (maxSize (options w)) ->
  JsMap.size (map (exec o w)) <= Z.max 0 (maxSize (options w)).
Proof.
  intros Hb. destruct o as [key tok ttlSeconds now now'|key now|key|key now|key now|key now|key ttlSeconds now now'| |now| |t now2 now]; cbn [exec].
  - destruct (set_cases key tok ttlSeconds now now' w) as [(_ & _ & ->)|[Hok ->]]; [done|].
    rewrite map_log_if. etrans; [apply scheduleExpiry_size|]. simpl.
    rewrite size_set. destruct (JsMap.has key (map w)) eqn:Hhas; [done|].
    apply has_false in Hhas. destruct Hok as [Hs|?]; [|lia].
    rewrite Hhas in Hs. by destruct Hs.
  - etrans; [|exact Hb].
    destruct (get_after_read key now w) as [-> | ->]; apply after_read_size.
  - etrans; [|exact Hb]. rewrite delete_map. apply size_delete_le.
  - etrans; [|exact Hb]. rewrite has_after_read. apply after_read_size.
  - etrans; [|exact Hb]. rewrite getMetadata_after_read. apply after_read_size.
  - etrans; [|exact Hb]. rewrite getTtl_after_read. apply after_read_size.
  - destruct (JsMap.get key (map w)) as [r|] eqn:Hr.
    + rewrite (updateTtl_present _ _ _ _ _ _ Hr). simpl.
      rewrite map_log_if. etrans; [apply scheduleExpiry_size|]. simpl.
      rewrite size_set. assert (JsMap.has key (map w) = true) as ->; [|done].
      apply has_true. by eexists.
    + by rewrite updateTtl_absent.
  - destruct (clear_fields w) as (-> & _). unfold JsMap.size. simpl. lia.
  - etrans; [|exact Hb]. apply (keys_fold_size now _ ([], w)).
  - done.
  - unfold fire. destruct (loop w !! t) as [tm|]; [|done]. simpl.
    etrans; [|exact Hb]. unfold on_timeout. simpl.
    destruct (JsMap.get (cb_key tm) (map w)) as [r|]; [|simpl; lia].
    destruct (expiresAt r <=? now2); simpl.
    + apply size_delete_le.
    + etrans; [apply scheduleExpiry_size|]. simpl. lia.
Qed.

(** With [debug] off no step writes to the console. *)
Lemma exec_console_quiet o w :
  debug (options w) = false -> console (exec o w) = console w.
Proof.
  intros Hd.
  assert (forall key now, console (after_read key now w) = console w) as Har.
  { intros key now. unfold after_read.
    destruct (JsMap.get key (map w)) as [r|]; [|done].
    destruct (expiresAt r <=? now); [|done].
    rewrite delete_console, Hd. simpl. by rewrite app_nil_r. }
  destruct o as [key tok ttlSeconds now now'|key now|key|key now|key now|key now|key ttlSeconds now now'| |now| |t now2 now]; cbn [exec].
  - destruct (set_cases key tok ttlSeconds now now' w) as [(_ & _ & ->)|[Hok ->]]; [done|].
    rewrite console_log_if, Hd, scheduleExpiry_console. simpl. by rewrite app_nil_r.
  - unfold get. destruct (JsMap.get key (map w)) as [r|] eqn:Hr; [|done].
    specialize (Har key now). unfold after_read in Har. rewrite Hr in Har.
    destruct (expiresAt r <=? now); simpl; [done|]. by rewrite Hd.
  - rewrite delete_console, Hd. simpl. by rewrite app_nil_r.
  - by rewrite has_after_read.
  - by rewrite getMetadata_after_read.
  - by rewrite getTtl_after_read.
  - destruct (JsMap.get key (map w)) as [r|] eqn:Hr.
    + rewrite (updateTtl_present _ _ _ _ _ _ Hr). simpl.
      rewrite console_log_if, Hd, scheduleExpiry_console. simpl. by rewrite app_nil_r.
    + by rewrite updateTtl_absent.
  - unfold clear. cbv zeta. rewrite console_log_if. simpl.
    destruct (clearTimeout_all (JsMap.values (timers w)) w) as (_ & _ & Ho & _ & Hc & _).
    rewrite Ho, Hd, Hc. by rewrite app_nil_r.
  - assert (forall es acc, debug (options acc.2) = false ->
              console (fold_left (keys_step now) es acc).2 = console acc.2) as Hfold.
    { induction es as [|[key r] es IH]; intros [vs w0] Hd0; [done|].
      rewrite keys_fold_cons. destruct (now <? expiresAt r).
      - by apply (IH (vs ++ [key], w0)).
      - rewrite (IH (vs, (delete key w0).2)); cbn [snd] in *.
        + rewrite delete_console, Hd0. cbn [andb]. by rewrite app_nil_r.
        + by rewrite delete_options. }
    by apply (Hfold _ ([], w)).
  - done.
  - unfold fire. destruct (loop w !! t) as [tm|]; [|done]. simpl.
    by rewrite on_timeout_console.
Qed.


Lemma run_size_bounded ops w :
  JsMap.size (map w) <= Z.max 0 (maxSize (options w)) ->
  JsMap.size (map (run ops w)) <= Z.max 0 (maxSize (options w)).
Proof.
  revert w. induction ops as [|o ops IH]; intros w Hb; simpl; [done|].
  rewrite <- (exec_options o w). apply IH. rewrite exec_options.
  by apply exec_size_bounded.
Qed.

Lemma run_console_quiet ops w :
  debug (options w) = false -> console (run ops w) = console w.
Proof.
  revert w. induction ops as [|o ops IH]; intros w Hd; simpl; [done|].
  rewrite IH by (by rewrite exec_options). by apply exec_console_quiet.
Qed.


(** *** Armed timers stay aimed at their records *)

Lemma Aimed_map w w' tm :
  JsMap.get (cb_key tm) (map w') = JsMap.get (cb_key tm) (map w) ->
  Aimed w tm -> Aimed w' tm.
Proof. intros Heq (Href & rec & Hrec & Hpos & Hd). split; [done|]. exists rec. by rewrite Heq. Qed.

(** After the handle of [key] is cancelled, the timers left are timers of
    other keys that were armed before. *)
Lemma cancel_existing_others key w t tm :
  InvBut key w -> loop (cancel_existing key w) !! t = Some tm ->
  loop w !! t = Some tm /\ cb_key tm <> key.
Proof.
  intros HB Ht. split.
  - rewrite cancel_existing_loop in Ht.
    destruct (JsMap.get key (timers w)); [|done].
    by apply lookup_delete_Some in Ht as [_ ?].
  - destruct (Quiet_cancel_existing key w HB) as [_ Hq]. by eapply Hq.
Qed.

(** A step that only removes timers, all those of [key], and leaves the
    records of the other keys alone keeps the timers aimed. *)
Lemma Timely_shrink key w w' :
  (forall t tm, loop w' !! t = Some tm -> loop w !! t = Some tm /\ cb_key tm <> key) ->
  (forall k', k' <> key -> JsMap.get k' (map w') = JsMap.get k' (map w)) ->
  Timely w -> Timely w'.
Proof.
  intros Hloop Hmap HT t tm Ht. destruct (Hloop t tm Ht) as [Ht0 Hne].
  apply (Aimed_map w); [by apply Hmap | by eapply HT].
Qed.

Lemma Timely_scheduleExpiry key e now w rec :
  InvBut key w ->
  (forall t tm, loop w !! t = Some tm -> cb_key tm <> key -> Aimed w tm) ->
  JsMap.get key (map w) = Some rec -> expiresAt rec = e ->
  Timely (scheduleExpiry key e now w).
Proof.
  intros HB Hothers Hrec He.
  destruct (Z_le_gt_dec (e - now) 0) as [Hpast|Hahead].
  - rewrite scheduleExpiry_past by done. intros t tm Ht. simpl in Ht.
    destruct (cancel_existing_others key w t tm HB Ht) as [Ht0 Hne].
    apply (Aimed_map w); [|by apply (Hothers t)]. simpl.
    rewrite cancel_existing_map. by rewrite get_delete_ne.
  - rewrite scheduleExpiry_ahead by lia. intros t tm Ht. simpl in Ht.
    apply lookup_insert_Some in Ht as [[<- <-]|[Hne Ht]].
    + split; [done|]. exists rec. simpl. split; [done|]. split; [lia | by rewrite He].
    + destruct (cancel_existing_others key w t tm HB Ht) as [Ht0 Hk].
      apply (Aimed_map w); [done | by apply (Hothers t)].
Qed.

Lemma Timely_delete key w : Inv w -> Timely w -> Timely (delete key w).2.
Proof.
  intros HI HT. apply (Timely_shrink key w); [| |done].
  - intros t tm Ht. rewrite delete_loop in Ht.
    by apply cancel_existing_others; [apply Inv_InvBut|].
  - intros k' Hk. by apply delete_frame.
Qed.

Lemma Timely_after_read key now w : Inv w -> Timely w -> Timely (after_read key now w).
Proof.
  intros HI HT. unfold after_read. destruct (JsMap.get key (map w)) as [r|]; [|done].
  destruct (expiresAt r <=? now); [by apply Timely_delete | done].
Qed.

Lemma Inv_after_read key now w : Inv w -> Inv (after_read key now w).
Proof.
  intros HI. unfold after_read. destruct (JsMap.get key (map w)) as [r|]; [|done].
  destruct (expiresAt r <=? now); [by apply Inv_delete | done].
Qed.

Lemma Timely_console_log l w : Timely w -> Timely (console_log l w).
Proof. intros HT t tm Ht. by apply (Aimed_map w), (HT t). Qed.

Lemma Timely_log_if b l w : Timely w -> Timely (log_if b l w).
Proof. destruct b; [apply Timely_console_log | done]. Qed.

(** Rewriting the record of [key] and re-scheduling its expiry. *)
Lemma Timely_reschedule key rec now w :
  Inv w -> Timely w ->
  Timely (scheduleExpiry key (expiresAt rec) now (with_map (JsMap.set key rec) w)).
Proof.
  intros HI HT. eapply Timely_scheduleExpiry.
  - by apply InvBut_map_set, Inv_InvBut.
  - intros t tm Ht Hne. simpl in Ht. apply (Aimed_map w); [|by eapply HT].
    simpl. by rewrite get_set_ne.
  - simpl. apply get_set_eq.
  - done.
Qed.

Lemma Timely_fire t now2 now w w' :
  Inv w -> Timely w -> fire t now2 now w = Some w' -> Timely w'.
Proof.
  intros HI HT. unfold fire. destruct (loop w !! t) as [tm|] eqn:Htm; [|done].
  intros [= <-].
  pose proof (Quiet_fire t tm w HI Htm) as [HB Hq].
  assert (forall t' tm', loop (clearTimeout t w) !! t' = Some tm' ->
            loop w !! t' = Some tm' /\ cb_key tm' <> cb_key tm) as Hleft.
  { intros t' tm' Ht'. split; [|by eapply Hq].
    simpl in Ht'. by apply lookup_delete_Some in Ht' as [_ ?]. }
  unfold on_timeout. simpl.
  destruct (JsMap.get (cb_key tm) (map w)) as [rec|] eqn:Hrec.
  - destruct (expiresAt rec <=? now2).
    + apply (Timely_shrink (cb_key tm) w); [done | | done].
      intros k' Hk. simpl. by rewrite get_delete_ne.
    + eapply Timely_scheduleExpiry; [done | | exact Hrec | done].
      intros t' tm' Ht' Hne. destruct (Hleft t' tm' Ht') as [Ht0 _].
      apply (Aimed_map w); [done | by eapply HT].
  - by apply (Timely_shrink (cb_key tm) w).
Qed.

Lemma Timely_keys_fold now es acc :
  Inv acc.2 -> Timely acc.2 ->
  Inv (fold_left (keys_step now) es acc).2 /\ Timely (fold_left (keys_step now) es acc).2.
Proof.
  revert acc. induction es as [|[key r] es IH]; intros [vs w] HI HT; [done|].
  rewrite keys_fold_cons. destruct (now <? expiresAt r).
  - by apply (IH (vs ++ [key], w)).
  - apply (IH (vs, (delete key w).2)); [by apply Inv_delete | by apply Timely_delete].
Qed.

Lemma Timely_exec o w : Inv w -> Timely w -> Timely (exec o w).
Proof.
  intros HI HT.
  destruct o as [key tok ttlSeconds now now'|key now|key|key now|key now|key now
                |key ttlSeconds now now'| |now| |t now2 now]; cbn [exec].
  - destruct (set_cases key tok ttlSeconds now now' w) as [(_ & _ & ->)|[_ ->]]; [done|].
    apply Timely_log_if.
    by apply (Timely_reschedule key (mkTokenRecord tok _ now)).
  - destruct (get_after_read key now w) as [-> | ->];
      [|apply Timely_console_log]; by apply Timely_after_read.
  - by apply Timely_delete.
  - rewrite has_after_read. by apply Timely_after_read.
  - rewrite getMetadata_after_read. by apply Timely_after_read.
  - rewrite getTtl_after_read. by apply Timely_after_read.
  - destruct (JsMap.get key (map w)) as [r|] eqn:Hr.
    + rewrite (updateTtl_present _ _ _ _ _ _ Hr). cbn [snd].
      apply Timely_log_if.
      by apply (Timely_reschedule key (mkTokenRecord (token r) _ (createdAt r))).
    + by rewrite updateTtl_absent.
  - intros t tm Ht. rewrite (clear_loop_empty w HI) in Ht. by rewrite lookup_empty in Ht.
  - by apply (Timely_keys_fold now _ ([], w)).
  - done.
  - destruct (fire t now2 now w) as [w'|] eqn:Hf; [|done]. by eapply Timely_fire.
Qed.

Lemma Timely_run ops w : Inv w -> Timely w -> Timely (run ops w).
Proof.
  revert w. induction ops as [|o ops IH]; intros w HI HT; simpl; [done|].
  apply IH; [by apply Inv_exec | by apply Timely_exec].
Qed.


(** *** Statistics and the order of keys *)

Lemma memory_fold (rs : list TokenRecord) (a : Z) :
  fold_left (fun acc record => acc + Z.of_nat (String.length (token record)) * 2 + 32) rs a =
    a + 2 * Z.of_nat (sum_list_with (fun r => String.length (token r)) rs)
      + 32 * Z.of_nat (length rs).
Proof.
  revert a. induction rs as [|r rs IH]; intros a; simpl; [lia|].
  rewrite IH. lia.
Qed.

Lemma set_new {V : Type} k (v : V) (m : JsMap.t V) :
  JsMap.get k m = None -> JsMap.set k v m = m ++ [(k, v)].
Proof.
  induction m as [|[k0 v0] m IH]; simpl; [done|].
  case_decide; [done|]. intros Hn. by rewrite IH.
Qed.

Lemma key_list_set {V : Type} k (v : V) (m : JsMap.t V) :
  JsMap.key_list (JsMap.set k v m) =
    if JsMap.has k m then JsMap.key_list m else JsMap.key_list m ++ [k].
Proof.
  unfold JsMap.key_list, JsMap.has. induction m as [|[k0 v0] m IH]; [done|].
  cbn [JsMap.set JsMap.get]. case_decide as Hk.
  - subst. by rewrite !fmap_cons.
  - rewrite !fmap_cons. cbn [fst]. rewrite IH. by destruct (JsMap.get k m).
Qed.

Lemma getMetadata_live w key rec now :
  JsMap.get key (map w) = Some rec -> now < expiresAt rec ->
  getMetadata key now w = (Some (expiresAt rec, createdAt rec), w).
Proof.
  intros Hrec Hlive. unfold getMetadata. rewrite Hrec.
  apply Z.leb_gt in Hlive. by rewrite Hlive.
Qed.


End more_effects.

(** ** Properties beyond the claims *)

Section extras.
Import JsMapFacts.
Implicit Types (w : Store) (k key : string) (h t : handle).

(** X1. [delete] returns whether the key had a record; afterwards the key
    has no record and no handle and the handle it had is cancelled; the
    records and handles of all other keys, and in a consistent store their
    armed timers, are as before; deleting again returns false and changes
    nothing. *)
Theorem X1_delete_removes (w : Store) (key : string) :
  ((delete key w).1 = true <-> is_Some (JsMap.get key (map w))) /\
  Cleaned key (JsMap.get key (timers w)) (delete key w).2 /\
  (forall k', k' <> key ->
     JsMap.get k' (map (delete key w).2) = JsMap.get k' (map w) /\
     JsMap.get k' (timers (delete key w).2) = JsMap.get k' (timers w) /\
     (Inv w -> forall t, JsMap.get k' (timers w) = Some t ->
        loop (delete key w).2 !! t = loop w !! t)) /\
  delete key (delete key w).2 = (false, (delete key w).2).
Proof.
  split; [|split; [|split]].
  - rewrite delete_result. apply has_true.
  - apply delete_Cleaned.
  - intros k' Hk. destruct (delete_frame key w k' Hk) as [Hm Ht].
    split; [done|]. split; [done|].
    intros HI t Hreg. rewrite delete_loop. by eapply cancel_existing_loop_frame.
  - destruct (delete_Cleaned key w) as (Hm & Ht & _). by apply delete_absent_id.
Qed.

(** Two keys in the default store; deleting the first. *)
Lemma X1_delete_removes_witness :
  let w := run [OpSet "a" "1" (Some 60) 0 0; OpSet "b" "2" (Some 60) 0 0] store0 in
  (delete "a" w).1 = true /\
  JsMap.get "a" (map (delete "a" w).2) = None /\
  JsMap.get "b" (map (delete "a" w).2) = JsMap.get "b" (map w) /\
  loop (delete "a" w).2 !! 1%nat = loop w !! 1%nat /\
  delete "a" (delete "a" w).2 = (false, (delete "a" w).2).
Proof.
  cbv zeta.
  pose proof (X1_delete_removes
                (run [OpSet "a" "1" (Some 60) 0 0; OpSet "b" "2" (Some 60) 0 0] store0) "a")
    as (Hret & (Hgone & _) & Hframe & Hagain).
  destruct (Hframe "b" ltac:(done)) as (Hb & _ & Hloop).
  split; [apply Hret; by eexists|]. split; [exact Hgone|]. split; [exact Hb|].
  split; [|exact Hagain].
  apply Hloop; [|reflexivity]. apply Inv_run, Inv_new.
Defined.

(** X2. [clear] empties both mappings and keeps the options; every
    handle that was registered is cancelled, and in a consistent store no
    timer at all stays armed, so no callback can run afterwards; the
    statistics read zero, every [get] finds nothing, and clearing again
    changes neither the mappings nor the timer table. *)
Theorem X2_clear_empties (w : Store) :
  map (clear w) = JsMap.empty /\ timers (clear w) = JsMap.empty /\
  options (clear w) = options w /\
  getStats (clear w) = mkTokenStats 0 0 0 /\
  (forall k t, JsMap.get k (timers w) = Some t -> loop (clear w) !! t = None) /\
  (Inv w -> loop (clear w) = ∅ /\ forall t now2 now, fire t now2 now (clear w) = None) /\
  (forall key now, get key now (clear w) = (None, clear w)) /\
  (map (clear (clear w)) = map (clear w) /\ timers (clear (clear w)) = timers (clear w) /\
   loop (clear (clear w)) = loop (clear w)).
Proof.
  destruct (clear_fields w) as (Hm & Ht & Ho & Hn & Hl).
  destruct (clear_fields (clear w)) as (Hm' & Ht' & _ & _ & Hl').
  split; [done|]. split; [done|]. split; [done|].
  split; [unfold getStats; by rewrite Hm, Ht|].
  split.
  { intros k t Hk. rewrite Hl. rewrite decide_True; [done|]. by eapply get_Some_values. }
  split.
  { intros HI. pose proof (clear_loop_empty w HI) as He. split; [done|].
    intros t now2 now. unfold fire. by rewrite He, lookup_empty. }
  split.
  { intros key now. unfold get. by rewrite Hm. }
  split; [by rewrite Hm', Hm|]. split; [by rewrite Ht', Ht|].
  apply map_eq. intros t. rewrite Hl', Ht. by rewrite decide_False by apply not_elem_of_nil.
Qed.

(** Two tokens, then [clear]: nothing is left and the timer 0 cannot
    fire any more. *)
Lemma X2_clear_empties_witness :
  let w := run [OpSet "a" "1" (Some 60) 0 0; OpSet "b" "2" (Some 60) 0 0] store0 in
  getStats w = mkTokenStats 2 2 68 /\
  getStats (clear w) = mkTokenStats 0 0 0 /\
  loop (clear w) = ∅ /\
  fire 0%nat 60000 60000 (clear w) = None /\
  get "a" 0 (clear w) = (None, clear w).
Proof.
  cbv zeta.
  pose proof (X2_clear_empties
                (run [OpSet "a" "1" (Some 60) 0 0; OpSet "b" "2" (Some 60) 0 0] store0))
    as (_ & _ & _ & Hstats & _ & Hinv & Hget & _).
  destruct (Hinv (Inv_run _ _ (Inv_new no_options))) as [Hloop Hfire].
  split; [reflexivity|]. split; [exact Hstats|]. split; [exact Hloop|].
  split; [apply Hfire | apply Hget].
Defined.

(** X3. [keys] returns the keys of exactly the records that are alive, in
    the order of the mapping, and deletes exactly the others: the record
    mapping keeps its live entries in their order, a live key keeps its
    handle, and calling [keys] again at the same instant returns the same
    list and changes nothing. *)
Theorem X3_keys_live (w : Store) (now : Z)
    (Hnd : NoDup (JsMap.key_list (map w))) :
  (keys now w).1 =
    (filter (fun e => now < expiresAt e.2) (JsMap.entries (map w))).*1 /\
  map (keys now w).2 =
    filter (fun e => now < expiresAt e.2) (JsMap.entries (map w)) /\
  (forall k, k ∈ (keys now w).1 <-> alive k now w) /\
  (forall k, alive k now w ->
     JsMap.get k (map (keys now w).2) = JsMap.get k (map w) /\
     JsMap.get k (timers (keys now w).2) = JsMap.get k (timers w)) /\
  keys now (keys now w).2 = ((keys now w).1, (keys now w).2).
Proof.
  pose proof (keys_result now w) as Hres.
  destruct (keys_fold_map now (JsMap.entries (map w)) ([], w)) as [Hmap Htim].
  fold (keys now w) in Hmap, Htim. cbn [snd] in Hmap, Htim.
  assert (map (keys now w).2 =
            filter (fun e => now < expiresAt e.2) (JsMap.entries (map w))) as Hmap'.
  { rewrite Hmap. apply filter_ext_in. intros e He. by apply dead_keys_NoDup. }
  assert (forall k, k ∈ (keys now w).1 <-> alive k now w) as Hin.
  { intros k. rewrite Hres. split.
    - intros Hk. apply list_elem_of_fmap in Hk as ([k' r] & -> & Hk).
      apply list_elem_of_filter in Hk as [Hlive Hk]. exists r. split; [|done].
      by apply elem_get_NoDup.
    - intros (r & Hr & Hlive). apply list_elem_of_fmap. exists (k, r). split; [done|].
      apply list_elem_of_filter. split; [done | by apply get_Some_elem]. }
  split; [done|]. split; [done|]. split; [done|]. split.
  - intros k (r & Hr & Hlive).
    assert (k ∉ (filter (fun e => ~ now < expiresAt e.2) (JsMap.entries (map w))).*1) as Hk.
    { apply (dead_keys_NoDup now (map w) (k, r) Hnd); [by apply get_Some_elem | done]. }
    split.
    + rewrite Hr. apply elem_get_NoDup.
      * rewrite Hmap'. unfold JsMap.key_list, JsMap.entries.
        apply (NoDup_fmap_fst_filter _ _ Hnd).
      * rewrite Hmap'. apply list_elem_of_filter. split; [done | by apply get_Some_elem].
    + rewrite Htim. by rewrite decide_False.
  - unfold keys at 1. rewrite Hmap'. unfold JsMap.entries at 1.
    rewrite keys_fold_all_live.
    + simpl. f_equal. by rewrite Hres.
    + apply Forall_forall. intros e He. by apply list_elem_of_filter in He as [? _].
Qed.

(** X4. [has], [get], [getMetadata] and [getTtl] agree: each reports the
    key as present exactly when it has a record with [expiresAt > now],
    and all four leave the same record mapping, handle mapping and timer
    table behind. *)
Theorem X4_reads_agree (w : Store) (key : string) (now : Z) :
  ((has key now w).1 = true <-> alive key now w) /\
  (is_Some (get key now w).1 <-> alive key now w) /\
  (is_Some (getMetadata key now w).1 <-> alive key now w) /\
  (is_Some (getTtl key now w).1 <-> alive key now w) /\
  (map (get key now w).2 = map (has key now w).2 /\
   timers (get key now w).2 = timers (has key now w).2 /\
   loop (get key now w).2 = loop (has key now w).2) /\
  (getMetadata key now w).2 = (has key now w).2 /\
  (getTtl key now w).2 = (has key now w).2.
Proof.
  assert (forall r, JsMap.get key (map w) = Some r ->
            (alive key now w <-> now < expiresAt r)) as Halive.
  { intros r Hr. split; [intros (r' & Hr' & ?); congruence | intros ?; by exists r]. }
  assert (JsMap.get key (map w) = None -> ~ alive key now w) as Hdead.
  { intros Hn (r' & Hr' & _). congruence. }
  split; [|split; [|split; [|split; [|split; [|split]]]]].
  - unfold has. destruct (JsMap.get key (map w)) as [r|] eqn:Hr.
    + rewrite (Halive r eq_refl).
      destruct (Z.leb_spec (expiresAt r) now); simpl; split; (done || lia).
    + simpl. split; [done | intros Ha; by destruct (Hdead eq_refl)].
  - unfold get. destruct (JsMap.get key (map w)) as [r|] eqn:Hr.
    + rewrite (Halive r eq_refl).
      destruct (Z.leb_spec (expiresAt r) now); simpl; split;
        try done; try lia; by intros [? ?].
    + simpl. split; [by intros [? ?] | intros Ha; by destruct (Hdead eq_refl)].
  - unfold getMetadata. destruct (JsMap.get key (map w)) as [r|] eqn:Hr.
    + rewrite (Halive r eq_refl).
      destruct (Z.leb_spec (expiresAt r) now); simpl; split;
        try done; try lia; by intros [? ?].
    + simpl. split; [by intros [? ?] | intros Ha; by destruct (Hdead eq_refl)].
  - unfold getTtl. destruct (JsMap.get key (map w)) as [r|] eqn:Hr.
    + rewrite (Halive r eq_refl). cbv zeta.
      destruct (Z.leb_spec (expiresAt r) now) as [Hexp|Hlive].
      * assert ((Z.max 0 (expiresAt r - now) =? 0) = true) as -> by (apply Z.eqb_eq; lia).
        simpl. split; [by intros [? ?] | lia].
      * assert ((Z.max 0 (expiresAt r - now) =? 0) = false) as -> by (apply Z.eqb_neq; lia).
        simpl. split; [done | by eexists].
    + simpl. split; [by intros [? ?] | intros Ha; by destruct (Hdead eq_refl)].
  - rewrite has_after_read. by destruct (get_after_read key now w) as [-> | ->].
  - by rewrite has_after_read, getMetadata_after_read.
  - by rewrite has_after_read, getTtl_after_read.
Qed.

(** A token that is alive at 1500 and expired at 62000. *)
Lemma X4_reads_agree_witness :
  (has "k" 1500 store_k60).1 = true /\
  is_Some (get "k" 1500 store_k60).1 /\
  ~ alive "k" 62000 store_k60 /\
  (getTtl "k" 62000 store_k60).2 = (has "k" 62000 store_k60).2.
Proof.
  pose proof (X4_reads_agree store_k60 "k" 1500) as (Hhas & Hget & _).
  pose proof (X4_reads_agree store_k60 "k" 62000) as (Hhas' & _ & _ & _ & _ & _ & Httl).
  assert (alive "k" 1500 store_k60) as Ha.
  { exists (mkTokenRecord "v" 61000 1000). split; [reflexivity | simpl; lia]. }
  split; [by apply Hhas|]. split; [by apply Hget|]. split; [|exact Httl].
  intros Hb. apply Hhas' in Hb. by vm_compute in Hb.
Defined.

(** X5. A read of a key that has no expired record changes nothing: [has],
    [getMetadata] and [getTtl] return the state they were given and [get]
    at most logs a line.  A read of any key leaves the records and handles
    of all other keys as they were, so the only thing a read ever removes is
    the expired record of the key it was asked about. *)
Theorem X5_reads_remove_only_expired (w : Store) (key : string) (now : Z) :
  ((forall rec, JsMap.get key (map w) = Some rec -> now < expiresAt rec) ->
     (has key now w).2 = w /\ (getMetadata key now w).2 = w /\ (getTtl key now w).2 = w /\
     map (get key now w).2 = map w /\ timers (get key now w).2 = timers w /\
     loop (get key now w).2 = loop w /\ next_handle (get key now w).2 = next_handle w) /\
  (forall k', k' <> key ->
     (JsMap.get k' (map (has key now w).2) = JsMap.get k' (map w) /\
      JsMap.get k' (timers (has key now w).2) = JsMap.get k' (timers w)) /\
     (JsMap.get k' (map (get key now w).2) = JsMap.get k' (map w) /\
      JsMap.get k' (timers (get key now w).2) = JsMap.get k' (timers w)) /\
     (JsMap.get k' (map (getMetadata key now w).2) = JsMap.get k' (map w) /\
      JsMap.get k' (timers (getMetadata key now w).2) = JsMap.get k' (timers w)) /\
     (JsMap.get k' (map (getTtl key now w).2) = JsMap.get k' (map w) /\
      JsMap.get k' (timers (getTtl key now w).2) = JsMap.get k' (timers w))) /\
  (forall k' rec', JsMap.get k' (map w) = Some rec' ->
     JsMap.get k' (map (get key now w).2) = None ->
     k' = key /\ expiresAt rec' <= now).
Proof.
  split; [|split].
  - intros Hlive.
    assert (after_read key now w = w) as Hsame.
    { unfold after_read. destruct (JsMap.get key (map w)) as [r|] eqn:Hr; [|done].
      specialize (Hlive r eq_refl). apply Z.leb_gt in Hlive. by rewrite Hlive. }
    rewrite has_after_read, getMetadata_after_read, getTtl_after_read, Hsame.
    split; [done|]. split; [done|]. split; [done|].
    destruct (get_after_read key now w) as [-> | ->]; by rewrite Hsame.
  - intros k' Hk. pose proof (after_read_frame key now w k' Hk) as Hf.
    rewrite has_after_read, getMetadata_after_read, getTtl_after_read.
    split; [done|]. split; [|done].
    by destruct (get_after_read key now w) as [-> | ->].
  - intros k' rec' Hrec Hgone.
    assert (JsMap.get k' (map (after_read key now w)) = None) as Hgone'
      by (by destruct (get_after_read key now w) as [Heq | Heq]; rewrite Heq in Hgone).
    destruct (decide (k' = key)) as [->|Hne].
    + split; [done|]. unfold after_read in Hgone'. rewrite Hrec in Hgone'.
      destruct (Z.leb_spec (expiresAt rec') now); [done | congruence].
    + rewrite (proj1 (after_read_frame key now w k' Hne)) in Hgone'. congruence.
Qed.

(** Reading the live key k: nothing changes; reading another key leaves
    k alone. *)
Lemma X5_reads_remove_only_expired_witness :
  (has "k" 1500 store_k60).2 = store_k60 /\
  (getTtl "k" 1500 store_k60).2 = store_k60 /\
  JsMap.get "k" (map (get "other" 62000 store_k60).2) = JsMap.get "k" (map store_k60).
Proof.
  pose proof (X5_reads_remove_only_expired store_k60 "k" 1500) as (Hpure & _ & _).
  pose proof (X5_reads_remove_only_expired store_k60 "other" 62000) as (_ & Hframe & _).
  destruct Hpure as (Hhas & _ & Httl & _).
  { intros rec Hrec. vm_compute in Hrec. injection Hrec as <-. simpl. lia. }
  destruct (Hframe "k" ltac:(done)) as (_ & (Hget & _) & _).
  exact (conj Hhas (conj Httl Hget)).
Defined.

(** X6. Whatever methods and timer callbacks run on a store, its options
    stay those the constructor computed and its record mapping never holds
    more than [maxSize] entries (none at all when [maxSize] is negative);
    the entry count [getStats] reports obeys the same bound. *)
Theorem X6_capacity_respected (o : TokenStoreOptions) (ops : list Op) :
  let w := run ops (new o) in
  options w = options (new o) /\
  JsMap.size (map w) <= Z.max 0 (maxSize (options w)) /\
  stat_size (getStats w) <= Z.max 0 (maxSize (options w)) /\
  (forall n, opt_maxSize o = Some n -> 0 < n -> JsMap.size (map w) <= n).
Proof.
  cbv zeta. pose proof (run_options ops (new o)) as Ho.
  assert (JsMap.size (map (run ops (new o))) <= Z.max 0 (maxSize (options (new o)))) as Hb.
  { apply run_size_bounded. unfold JsMap.size. simpl. lia. }
  split; [done|]. rewrite Ho. split; [done|]. split; [done|].
  intros n Hn Hpos. etrans; [exact Hb|]. simpl. rewrite Hn.
  destruct n; simpl; lia.
Qed.

(** A store of capacity 2 that is offered three keys holds two. *)
Lemma X6_capacity_respected_witness :
  let ops := [OpSet "a" "1" (Some 60) 0 0; OpSet "b" "2" (Some 60) 0 0;
              OpSet "c" "3" (Some 60) 0 0] in
  let w := run ops (new (mkTokenStoreOptions (Some 2) None None)) in
  JsMap.key_list (map w) = ["a"; "b"] /\ JsMap.size (map w) <= 2.
Proof.
  cbv zeta. split; [reflexivity|].
  pose proof (X6_capacity_respected (mkTokenStoreOptions (Some 2) None None)
                [OpSet "a" "1" (Some 60) 0 0; OpSet "b" "2" (Some 60) 0 0;
                 OpSet "c" "3" (Some 60) 0 0]) as (_ & _ & _ & Hn).
  apply (Hn 2 eq_refl). lia.
Defined.

(** X7. Logging follows [debug] alone.  A store built without [debug: true]
    never writes to the console, whatever runs on it.  A timer callback
    never logs.  With [debug] on, a completed [set], a [get] of a live key,
    an [updateTtl] of a key that has a record and a [clear] each add exactly
    one line, and [delete] adds one exactly when the key had a record. *)
Theorem X7_console_follows_debug :
  (forall (o : TokenStoreOptions) (ops : list Op),
     opt_debug o <> Some true -> console (run ops (new o)) = []) /\
  (forall (w : Store) (t : handle) (now2 now : Z) (w' : Store),
     fire t now2 now w = Some w' -> console w' = console w) /\
  (forall (w : Store),
     debug (options w) = true ->
     (forall key tok ttlSeconds now now' w',
        set key tok ttlSeconds now now' w = Return tt w' ->
        console w' =
          console w ++ [LogSet key (nullish ttlSeconds (defaultTtl (options w)))]) /\
     (forall key now, alive key now w ->
        console (get key now w).2 = console w ++ [LogRetrieved key]) /\
     (forall key,
        console (delete key w).2 =
          console w ++ (if JsMap.has key (map w) then [LogDeleted key] else [])) /\
     (forall key ttl now now', is_Some (JsMap.get key (map w)) ->
        console (updateTtl key ttl now now' w).2 = console w ++ [LogUpdatedTtl key ttl]) /\
     console (clear w) = console w ++ [LogCleared]).
Proof.
  split; [|split].
  - intros o ops Hd. rewrite run_console_quiet; [done|].
    simpl. destruct (opt_debug o) as [[]|]; done.
  - intros w t now2 now w'. unfold fire. destruct (loop w !! t) as [tm|]; [|done].
    intros [= <-]. by rewrite on_timeout_console.
  - intros w Hd. split; [|split; [|split; [|split]]].
    + intros key tok ttlSeconds now now' w' Hs. apply set_Return in Hs. subst w'.
      cbv zeta. by rewrite console_log_if, Hd, scheduleExpiry_console.
    + intros key now (r & Hr & Hlive). unfold get. rewrite Hr.
      apply Z.leb_gt in Hlive. rewrite Hlive. simpl. by rewrite Hd.
    + intros key. by rewrite delete_console, Hd.
    + intros key ttl now now' [r Hr]. rewrite (updateTtl_present _ _ _ _ _ _ Hr). simpl.
      by rewrite console_log_if, Hd, scheduleExpiry_console.
    + unfold clear. cbv zeta. rewrite console_log_if. simpl.
      destruct (clearTimeout_all (JsMap.values (timers w)) w) as (_ & _ & Ho & _ & Hc & _).
      by rewrite Ho, Hd, Hc.
Qed.

(** The logging tests of the repository: [set], [get], [delete] on a
    default store log nothing, and on a store with [debug: true] three
    lines. *)
Lemma X7_console_follows_debug_witness :
  let ops := [OpSet "key1" "token1" (Some 60) 0 0; OpGet "key1" 0; OpDelete "key1"] in
  console (run ops (new no_options)) = [] /\
  console (run ops (new (mkTokenStoreOptions None None (Some true)))) =
    [LogSet "key1" 60; LogRetrieved "key1"; LogDeleted "key1"].
Proof.
  cbv zeta. split; [|reflexivity].
  apply (proj1 X7_console_follows_debug no_options). done.
Defined.

(** X8. Whatever has run on a store since the constructor, every timer
    that is armed has been [unref]'d, so it does not keep the process
    alive; its delay lies in [1 .. 2^31-1], the range the runtime takes
    unchanged; and it is aimed at the record its key has now: the delay is
    [min(expiresAt - armed_at, 2^31-1)], so the timer never waits past the
    record's deadline. *)
Theorem X8_timers_aimed (o : TokenStoreOptions) (ops : list Op) (t : handle) (tm : Timeout) :
  loop (run ops (new o)) !! t = Some tm ->
  has_ref tm = false /\
  1 <= delay tm <= MAX_TIMEOUT_MS /\
  node_delay (delay tm) = delay tm /\
  exists rec,
    JsMap.get (cb_key tm) (map (run ops (new o))) = Some rec /\
    delay tm = Z.min (expiresAt rec - armed_at tm) MAX_TIMEOUT_MS /\
    armed_at tm + delay tm <= expiresAt rec.
Proof.
  intros Ht.
  assert (Timely (run ops (new o))) as HT.
  { apply Timely_run; [apply Inv_new|]. intros t' tm' Ht'. simpl in Ht'.
    by rewrite lookup_empty in Ht'. }
  destruct (HT t tm Ht) as (Href & rec & Hrec & Hpos & Hd).
  split; [done|].
  assert (1 <= delay tm <= MAX_TIMEOUT_MS) as Hrange by (unfold MAX_TIMEOUT_MS in *; lia).
  split; [done|]. split.
  - rewrite Hd. apply node_delay_segment. lia.
  - exists rec. split; [done|]. split; [done|]. lia.
Qed.

(** A 30-day token after its timer fired once, too early: the timer now
    armed is the handle 1, unref'd, with the full [2^31-1] ms segment. *)
Lemma X8_timers_aimed_witness :
  let ops := [OpSet "k" "v" (Some 2592000) 1000 1000; OpFire 0%nat 1001 1001] in
  loop (run ops (new no_options)) !! 1%nat = Some (mkTimeout "k" 2147483647 1001 false) /\
  1 <= 2147483647 <= MAX_TIMEOUT_MS /\
  exists rec,
    JsMap.get "k" (map (run ops (new no_options))) = Some rec /\
    1001 + 2147483647 <= expiresAt rec.
Proof.
  cbv zeta. split; [reflexivity|].
  destruct (X8_timers_aimed no_options
              [OpSet "k" "v" (Some 2592000) 1000 1000; OpFire 0%nat 1001 1001]
              1%nat (mkTimeout "k" 2147483647 1001 false) eq_refl)
    as (_ & Hrange & _ & rec & Hrec & _ & Hle).
  split; [exact Hrange|]. exists rec. split; [exact Hrec | exact Hle].
Defined.

(** X9. [updateTtl] does not look at the old deadline: a record that has
    already expired but has not yet been removed (a [get] at that moment
    would return null) is brought back by [updateTtl] with a lifetime whose
    deadline is ahead; it returns true, and afterwards [get] returns the old
    token and [getMetadata] the new deadline with the original
    [createdAt]. *)
Theorem X9_updateTtl_revives
    (w : Store) (key : string) (rec : TokenRecord) (ttl now now' g : Z)
    (Hrec : JsMap.get key (map w) = Some rec)
    (Hstale : expiresAt rec <= now)
    (Hahead : now' < now + ttl * 1000)
    (Hg : g < now + ttl * 1000) :
  (get key now w).1 = None /\
  (updateTtl key ttl now now' w).1 = true /\
  (get key g (updateTtl key ttl now now' w).2).1 = Some (token rec) /\
  (getMetadata key g (updateTtl key ttl now now' w).2).1 =
    Some (now + ttl * 1000, createdAt rec).
Proof.
  split; [by apply (get_expired w key rec now)|].
  rewrite (updateTtl_present _ _ _ _ _ _ Hrec). cbn [fst snd]. split; [done|].
  set (rec' := mkTokenRecord (token rec) (now + ttl * 1000) (createdAt rec)).
  assert (JsMap.get key
            (map (log_if (debug (options w)) (LogUpdatedTtl key ttl)
                    (scheduleExpiry key (now + ttl * 1000) now'
                       (with_map (JsMap.set key rec') w)))) = Some rec') as Hnew.
  { rewrite map_log_if, scheduleExpiry_keeps by lia. simpl. apply get_set_eq. }
  split.
  - by rewrite (get_live _ _ _ _ Hnew).
  - by rewrite (getMetadata_live _ _ _ _ Hnew).
Qed.

(** A one-second token, two seconds after the insert: [get] would find
    nothing, [updateTtl] with 60 seconds brings it back. *)
Lemma X9_updateTtl_revives_witness :
  (get "k" 3000 store_k1).1 = None /\
  (updateTtl "k" 60 3000 3000 store_k1).1 = true /\
  (get "k" 3000 (updateTtl "k" 60 3000 3000 store_k1).2).1 = Some "v" /\
  (getMetadata "k" 3000 (updateTtl "k" 60 3000 3000 store_k1).2).1 = Some (63000, 1000).
Proof.
  apply (X9_updateTtl_revives store_k1 "k" (mkTokenRecord "v" 2000 1000) 60 3000 3000 3000).
  - reflexivity.
  - simpl. lia.
  - lia.
  - lia.
Defined.

(** X10. After a completed [set], [getMetadata] asked before the deadline
    returns [expiresAt = now + ttl * 1000] and [createdAt = now], the clock
    reading of that [set], also when the key had an older record: an
    overwrite starts the record anew.  [getMetadata] changes nothing and
    never exposes the token. *)
Theorem X10_metadata_after_set
    (w : Store) (key tok : string) (ttlSeconds : option Z) (now now' g : Z) (w' : Store)
    (Hset : set key tok ttlSeconds now now' w = Return tt w')
    (Hahead : now' < now + nullish ttlSeconds (defaultTtl (options w)) * 1000)
    (Hg : g < now + nullish ttlSeconds (defaultTtl (options w)) * 1000) :
  getMetadata key g w' =
    (Some (now + nullish ttlSeconds (defaultTtl (options w)) * 1000, now), w').
Proof.
  pose proof (set_Armed _ _ _ _ _ _ _ Hset Hahead) as (Hrec & _).
  by rewrite (getMetadata_live _ _ _ _ Hrec).
Qed.

(** Overwriting at time 5000 the token stored at time 1000, with the
    default lifetime of one hour. *)
Lemma X10_metadata_after_set_witness :
  exists w',
    set "k" "v2" None 5000 5000 store_k60 = Return tt w' /\
    getMetadata "k" 5000 w' = (Some (3605000, 5000), w').
Proof.
  eexists. split; [reflexivity|].
  apply (X10_metadata_after_set store_k60 "k" "v2" None 5000 5000 5000).
  - reflexivity.
  - simpl. lia.
  - simpl. lia.
Defined.

(** X11. [getStats] changes nothing; its [memoryUsage] is 32 per record
    plus 2 per character of the stored tokens, hence zero for an empty
    store and at least [32 * size] otherwise.  A completed [set] of a new
    key whose deadline is ahead raises [size] by one and [memoryUsage] by
    [2 * length + 32]. *)
Theorem X11_stats_estimate :
  (forall (w : Store),
     stat_size (getStats w) = JsMap.size (map w) /\
     pendingCleanups (getStats w) = JsMap.size (timers w) /\
     memoryUsage (getStats w) = 32 * JsMap.size (map w) + 2 * token_chars (map w) /\
     32 * stat_size (getStats w) <= memoryUsage (getStats w)) /\
  (forall (o : TokenStoreOptions), getStats (new o) = mkTokenStats 0 0 0) /\
  (forall (w : Store) (key tok : string) (ttlSeconds : option Z) (now now' : Z) (w' : Store),
     JsMap.get key (map w) = None ->
     set key tok ttlSeconds now now' w = Return tt w' ->
     now' < now + nullish ttlSeconds (defaultTtl (options w)) * 1000 ->
     stat_size (getStats w') = stat_size (getStats w) + 1 /\
     memoryUsage (getStats w') =
       memoryUsage (getStats w) + 2 * Z.of_nat (String.length tok) + 32).
Proof.
  assert (forall w, memoryUsage (getStats w) =
                      32 * JsMap.size (map w) + 2 * token_chars (map w)) as Hmem.
  { intros w. unfold getStats. cbv zeta. simpl. rewrite memory_fold.
    unfold token_chars, JsMap.size, JsMap.values. rewrite length_fmap. lia. }
  split; [|split].
  - intros w. split; [done|]. split; [done|]. split; [apply Hmem|].
    rewrite Hmem. unfold token_chars. simpl. lia.
  - done.
  - intros w key tok ttlSeconds now now' w' Hnew Hset Hahead.
    rewrite !Hmem. simpl.
    apply set_Return in Hset. cbv zeta in Hset. subst w'.
    rewrite map_log_if, scheduleExpiry_ahead by lia. simpl.
    rewrite (set_new _ _ _ Hnew).
    unfold token_chars, JsMap.size, JsMap.values.
    rewrite fmap_app, sum_list_with_app, length_app. simpl. lia.
Qed.

(** The statistics test of the repository: two tokens of six characters. *)
Lemma X11_stats_estimate_witness :
  let w := run [OpSet "key1" "token1" (Some 60) 0 0] store0 in
  exists w',
    set "key2" "token2" (Some 60) 0 0 w = Return tt w' /\
    stat_size (getStats w') = stat_size (getStats w) + 1 /\
    memoryUsage (getStats w') = memoryUsage (getStats w) + 2 * 6 + 32 /\
    getStats w' = mkTokenStats 2 2 88.
Proof.
  cbv zeta. eexists. split; [reflexivity|].
  destruct (proj2 (proj2 X11_stats_estimate)
              (run [OpSet "key1" "token1" (Some 60) 0 0] store0)
              "key2" "token2" (Some 60) 0 0 _ eq_refl eq_refl ltac:(simpl; lia))
    as [Hsize Hmem].
  split; [exact Hsize|]. split; [exact Hmem | reflexivity].
Defined.

(** X12. A completed [set] touches its own key only: the records and
    handles of the other keys, and in a consistent store their armed
    timers, are as before, and the timer the key had is cancelled.  When
    the deadline is ahead the key holds the new record, in the place it had
    in the order of the mapping if it was there and at the end if it is
    new. *)
Theorem X12_set_touches_one_key
    (w : Store) (key tok : string) (ttlSeconds : option Z) (now now' : Z) (w' : Store)
    (Hset : set key tok ttlSeconds now now' w = Return tt w') :
  let e := now + nullish ttlSeconds (defaultTtl (options w)) * 1000 in
  (forall k', k' <> key ->
     JsMap.get k' (map w') = JsMap.get k' (map w) /\
     JsMap.get k' (timers w') = JsMap.get k' (timers w) /\
     (Inv w -> forall t, JsMap.get k' (timers w) = Some t -> loop w' !! t = loop w !! t)) /\
  (Inv w -> forall t, JsMap.get key (timers w) = Some t -> loop w' !! t = None) /\
  (now' < e ->
     JsMap.get key (map w') = Some (mkTokenRecord tok e now) /\
     JsMap.key_list (map w') =
       if JsMap.has key (map w)
       then JsMap.key_list (map w)
       else JsMap.key_list (map w) ++ [key]).
Proof.
  intros e. apply set_Return in Hset. cbv zeta in Hset. fold e in Hset. subst w'.
  rewrite map_log_if, timers_log_if, loop_log_if.
  set (w1 := with_map (JsMap.set key (mkTokenRecord tok e now)) w).
  split; [|split].
  - intros k' Hk. destruct (scheduleExpiry_frame key e now' w1 k' Hk) as [-> ->].
    unfold w1. simpl. split; [by apply get_set_ne, not_eq_sym|]. split; [done|].
    intros HI t Ht. rewrite scheduleExpiry_loop_frame; simpl; [done| |].
    + intros Hreg. destruct (inv_live w HI _ _ Ht) as (tm & Htm & Hcb).
      destruct (inv_live w HI _ _ Hreg) as (tm' & Htm' & Hcb'). congruence.
    + intros ->. destruct (inv_live w HI _ _ Ht) as (tm & Htm & _).
      assert (next_handle w < next_handle w)%nat; [|lia].
      apply (inv_fresh w HI). by eexists.
  - intros HI t Ht.
    assert (loop (cancel_existing key w1) !! t = None) as Hc.
    { rewrite cancel_existing_loop. unfold w1. simpl. rewrite Ht. apply lookup_delete_eq. }
    destruct (Z_le_gt_dec (e - now') 0) as [Hpast|Hahead].
    + by rewrite scheduleExpiry_past.
    + rewrite scheduleExpiry_ahead by lia. simpl. rewrite lookup_insert_ne; [done|].
      intros <-. destruct (inv_live w HI _ _ Ht) as (tm & Htm & _).
      assert (next_handle w < next_handle w)%nat; [|lia].
      apply (inv_fresh w HI). by eexists.
  - intros Hahead. rewrite scheduleExpiry_ahead by lia. unfold w1. simpl.
    split; [apply get_set_eq | apply key_list_set].
Qed.

(** Overwriting the first of two keys keeps it first; a new key goes
    last. *)
Lemma X12_set_touches_one_key_witness :
  let w := run [OpSet "a" "1" (Some 60) 0 0; OpSet "b" "2" (Some 60) 0 0] store0 in
  (exists w', set "a" "3" (Some 60) 5 5 w = Return tt w' /\
     JsMap.key_list (map w') = ["a"; "b"] /\
     JsMap.get "b" (map w') = JsMap.get "b" (map w) /\
     loop w' !! 0%nat = None).
Proof.
  cbv zeta. eexists. split; [reflexivity|].
  destruct (X12_set_touches_one_key
              (run [OpSet "a" "1" (Some 60) 0 0; OpSet "b" "2" (Some 60) 0 0] store0)
              "a" "3" (Some 60) 5 5 _ eq_refl) as (Hframe & Hold & Hnew).
  destruct (Hframe "b" ltac:(done)) as (Hb & _).
  destruct (Hnew ltac:(simpl; lia)) as [_ Hkeys].
  split; [exact Hkeys|]. split; [exact Hb|].
  apply Hold; [apply Inv_run, Inv_new | reflexivity].
Defined.

(** Three tokens, one of them expired at the time of the call. *)
Lemma X3_keys_live_witness :
  let w := run [OpSet "key1" "token1" (Some 60) 0 0; OpSet "key2" "token2" (Some 60) 0 0;
                OpSet "key3" "token3" (Some 1) 0 0] store0 in
  (keys 1100 w).1 = ["key1"; "key2"] /\
  JsMap.key_list (map (keys 1100 w).2) = ["key1"; "key2"] /\
  keys 1100 (keys 1100 w).2 = (["key1"; "key2"], (keys 1100 w).2).
Proof.
  cbv zeta.
  destruct (X3_keys_live
              (run [OpSet "key1" "token1" (Some 60) 0 0; OpSet "key2" "token2" (Some 60) 0 0;
                    OpSet "key3" "token3" (Some 1) 0 0] store0) 1100)
    as (Hres & Hmap & _ & _ & Hagain).
  { apply (inv_nodup_map _ (Inv_run _ _ (Inv_new no_options))). }
  split; [reflexivity|]. split; [reflexivity|].
  exact Hagain.
Defined.

End extras.


(** ** The rate limiter *)

Section rate_limit.
Import JsMapFacts.

Variable parseInt : string -> option Z.
Variable toString : option Z -> string.

(** What the proofs need of the two builtins: printing a safe
    non-negative integer and parsing it back gives the integer, and no
    number prints as the empty string. *)
Hypothesis parse_print :
  forall n, 0 <= n <= MAX_SAFE_INTEGER -> parseInt (toString (Some n)) = Some n.
Hypothesis print_nonempty : forall x, toString x <> "".

#[local] Abbreviation window_key := (RateLimiter.window_key toString).
#[local] Abbreviation checkLimit := (RateLimiter.checkLimit parseInt toString).
#[local] Abbreviation getRemainingRequests := (RateLimiter.getRemainingRequests parseInt toString).
#[local] Abbreviation serve := (RateLimiter.serve parseInt toString).
#[local] Abbreviation Tally := (RateLimiter.Tally toString).

Lemma length_append (s t : string) :
  String.length (s +:+ t) = (String.length s + String.length t)%nat.
Proof. induction s as [|x s IH]; simpl; [done | by rewrite IH]. Qed.

Lemma append_inj_r (s a b : string) : a +:+ s = b +:+ s -> a = b.
Proof.
  revert b. induction a as [|x a IH]; intros b Heq.
  - destruct b as [|y b]; [done|]. exfalso.
    apply (f_equal String.length) in Heq.
    rewrite !length_append in Heq. simpl in Heq. lia.
  - destruct b as [|y b].
    + exfalso. apply (f_equal String.length) in Heq.
      rewrite !length_append in Heq. simpl in Heq. lia.
    + change (String x (a +:+ s) = String y (b +:+ s)) in Heq.
      injection Heq as -> Heq. f_equal. by apply IH.
Qed.

(** In one minute, different clients have different keys. *)
Lemma window_key_inj c c' now now' :
  now / 60000 = now' / 60000 -> window_key c now = window_key c' now' -> c = c'.
Proof.
  unfold RateLimiter.window_key. intros -> Heq.
  apply String.app_inj in Heq. by apply append_inj_r in Heq.
Qed.

Lemma window_div W r : W * 60000 <= r < (W + 1) * 60000 -> r / 60000 = W.
Proof. intros H. symmetry. apply (Z.div_unique r 60000 W (r - W * 60000)); lia. Qed.

(** A request for another key leaves the record of [K] as it is,
    whatever its outcome. *)
Lemma checkLimit_frame c n0 n1 n2 n3 rl K :
  window_key c n0 <> K ->
  let w' := match checkLimit c n0 n1 n2 n3 rl with Return _ w => w | Throw _ w => w end in
  JsMap.get K (map w') = JsMap.get K (map (RateLimiter.store rl)).
Proof.
  intros Hne. cbv zeta. unfold RateLimiter.checkLimit. cbv zeta.
  set (key := window_key c n0) in *. set (w := RateLimiter.store rl).
  assert (JsMap.get K (map (get key n1 w).2) = JsMap.get K (map w)) as Hget.
  { destruct (get_after_read key n1 w) as [-> | ->]; simpl;
      by apply after_read_frame, not_eq_sym. }
  destruct (RateLimiter.at_least _ _); [done|].
  match goal with |- context [set key ?tok (Some 60) n2 n3 ?w1] =>
    destruct (set_cases key tok (Some 60) n2 n3 w1) as [(_ & _ & ->)|[_ ->]] end; [done|].
  rewrite map_log_if.
  rewrite (proj1 (scheduleExpiry_frame key _ n3 _ K (not_eq_sym Hne))). simpl.
  by rewrite get_set_ne.
Qed.

(** A request for the key [K] inside its minute: refused without effect
    on the tally, or allowed and counted, or thrown without effect. *)
Lemma checkLimit_tally c n0 n1 n2 n3 rl W n :
  RateLimiter.requestsPerMinute rl <= MAX_SAFE_INTEGER ->
  RateLimiter.in_window W (RateLimiter.mkCall c n0 n1 n2 n3) ->
  Tally (window_key c n0) (RateLimiter.requestsPerMinute rl) W n (RateLimiter.store rl) ->
  match checkLimit c n0 n1 n2 n3 rl with
  | Return true w' =>
      Tally (window_key c n0) (RateLimiter.requestsPerMinute rl) W (n + 1) w'
  | Return false w' =>
      Tally (window_key c n0) (RateLimiter.requestsPerMinute rl) W n w' /\
      RateLimiter.requestsPerMinute rl <= n
  | Throw _ w' => Tally (window_key c n0) (RateLimiter.requestsPerMinute rl) W n w'
  end.
Proof.
  intros Hsafe Hwin HT. unfold RateLimiter.in_window in Hwin. simpl in Hwin.
  apply Forall_cons in Hwin as [H0 Hwin]. apply Forall_cons in Hwin as [H1 Hwin].
  apply Forall_cons in Hwin as [H2 Hwin]. apply Forall_cons in Hwin as [H3 _].
  set (rpm := RateLimiter.requestsPerMinute rl) in *.
  set (K := window_key c n0) in *. set (w := RateLimiter.store rl) in *.
  unfold RateLimiter.checkLimit. cbv zeta. fold K. fold w. fold rpm.
  (* what [get] returns and leaves *)
  assert (exists w1,
            get K n1 w = (match JsMap.get K (map w) with
                          | Some rec => Some (token rec) | None => None end, w1) /\
            map w1 = map w) as (w1 & Hget & Hmap).
  { unfold RateLimiter.Tally in HT. unfold get.
    destruct (JsMap.get K (map w)) as [rec|] eqn:Hrec; [|by eexists].
    destruct HT as (_ & _ & Hexp).
    assert ((expiresAt rec <=? n1) = false) as -> by (apply Z.leb_gt; lia).
    eexists. split; [done|]. apply map_log_if. }
  rewrite Hget. cbn [fst snd].
  assert (RateLimiter.read_count parseInt
            match JsMap.get K (map w) with
            | Some rec => Some (token rec) | None => None end = Some n /\ 0 <= n <= rpm
          \/ (JsMap.get K (map w) = None /\ n = 0 /\ rpm < 0 /\
              RateLimiter.read_count parseInt None = Some 0)) as Hcount.
  { unfold RateLimiter.Tally in HT. destruct (JsMap.get K (map w)) as [rec|] eqn:Hrec.
    - destruct HT as (Htok & Hn & _). left. simpl. rewrite Htok.
      rewrite decide_False by apply print_nonempty.
      split; [apply parse_print; lia | lia].
    - subst n. simpl. destruct (Z_lt_dec rpm 0); [by right | left; split; [done | lia]]. }
  assert (forall m, Tally K rpm W m w1 <-> Tally K rpm W m w) as HTw1
    by (intros m; unfold RateLimiter.Tally; by rewrite Hmap).
  assert (RateLimiter.read_count parseInt
            match JsMap.get K (map w) with
            | Some rec => Some (token rec) | None => None end = Some n) as Hc.
  { destruct Hcount as [[? _]|(Hnone & -> & _ & ?)]; [done | by rewrite Hnone]. }
  rewrite Hc. simpl.
  destruct (Z.leb_spec rpm n) as [Hfull|Hroom].
  - split; [by apply HTw1 | done].
  - destruct (set_cases K (toString (Some (n + 1))) (Some 60) n2 n3 w1)
      as [(_ & _ & ->)|[_ ->]]; [by apply HTw1|].
    unfold RateLimiter.Tally. rewrite map_log_if. simpl.
    rewrite scheduleExpiry_keeps by lia. simpl. rewrite get_set_eq. simpl.
    split; [done|]. split; [|lia].
    destruct Hcount as [[_ ?]|(_ & ? & ? & _)]; lia.
Qed.

(** Serving requests of one minute keeps the tally of every client: it
    grows by the number of its requests that were allowed. *)
Lemma serve_tally W c K calls :
  forall rl n,
    RateLimiter.requestsPerMinute rl <= MAX_SAFE_INTEGER ->
    K = window_key c (W * 60000) ->
    Forall (RateLimiter.in_window W) calls ->
    Tally K (RateLimiter.requestsPerMinute rl) W n (RateLimiter.store rl) ->
    Tally K (RateLimiter.requestsPerMinute rl) W
      (n + RateLimiter.allowed c (serve calls rl).1)
      (RateLimiter.store (serve calls rl).2) /\
    RateLimiter.requestsPerMinute (serve calls rl).2 = RateLimiter.requestsPerMinute rl.
Proof.
  induction calls as [|call calls IH]; intros rl n Hsafe HK Hwin HT.
  - simpl. unfold RateLimiter.allowed. simpl. by rewrite Z.add_0_r.
  - apply Forall_cons in Hwin as [Hcall Hwin].
    destruct call as [c' n0 n1 n2 n3].
    assert (window_key c' n0 = "rate:" +:+ c' +:+ ":" +:+ toString (Some W)) as Hkey.
    { unfold RateLimiter.window_key. rewrite (window_div W n0); [done|].
      unfold RateLimiter.in_window in Hcall. simpl in Hcall.
      by apply Forall_cons in Hcall as [? _]. }
    assert (K = "rate:" +:+ c +:+ ":" +:+ toString (Some W)) as HK'.
    { rewrite HK. unfold RateLimiter.window_key. rewrite (window_div W (W * 60000)); [done|lia]. }
    cbn [RateLimiter.serve RateLimiter.client RateLimiter.at0 RateLimiter.at1
           RateLimiter.at2 RateLimiter.at3].
    set (rpm := RateLimiter.requestsPerMinute rl) in *.
    destruct (decide (c' = c)) as [->|Hne].
    + (* a request of the client itself *)
      assert (window_key c n0 = K) as HkK by (by rewrite Hkey, HK').
      pose proof (checkLimit_tally c n0 n1 n2 n3 rl W n Hsafe Hcall) as Hstep.
      rewrite HkK in Hstep. specialize (Hstep HT). fold rpm in Hstep.
      destruct (checkLimit c n0 n1 n2 n3 rl) as [[|] w'|e w'].
      * destruct (IH (RateLimiter.mkRateLimiter w' rpm) (n + 1) Hsafe HK Hwin Hstep)
          as [HT' Hrpm].
        destruct (serve calls (RateLimiter.mkRateLimiter w' rpm)) as [rs rl'].
        cbn [fst snd] in *. split; [|done].
        unfold RateLimiter.allowed in *. rewrite filter_cons_True by done.
        simpl length. rewrite Nat2Z.inj_succ. simpl in HT'.
        by replace (n + Z.succ (Z.of_nat (length (filter
                     (fun r => r = (c, Some true)) rs))))
          with (n + 1 + Z.of_nat (length (filter (fun r => r = (c, Some true)) rs))) by lia.
      * destruct Hstep as [Hstep _].
        destruct (IH (RateLimiter.mkRateLimiter w' rpm) n Hsafe HK Hwin Hstep)
          as [HT' Hrpm].
        destruct (serve calls (RateLimiter.mkRateLimiter w' rpm)) as [rs rl'].
        cbn [fst snd] in *. split; [|done].
        unfold RateLimiter.allowed in *. by rewrite filter_cons_False by done.
      * destruct (IH (RateLimiter.mkRateLimiter w' rpm) n Hsafe HK Hwin Hstep)
          as [HT' Hrpm].
        destruct (serve calls (RateLimiter.mkRateLimiter w' rpm)) as [rs rl'].
        cbn [fst snd] in *. split; [|done].
        unfold RateLimiter.allowed in *. by rewrite filter_cons_False by done.
    + (* a request of another client *)
      assert (window_key c' n0 <> K) as HkK.
      { rewrite Hkey, HK'. intros Heq. apply Hne.
        apply String.app_inj in Heq. by apply append_inj_r in Heq. }
      pose proof (checkLimit_frame c' n0 n1 n2 n3 rl K HkK) as Hframe. cbv zeta in Hframe.
      assert (forall w', JsMap.get K (map w') = JsMap.get K (map (RateLimiter.store rl)) ->
                Tally K rpm W n w') as Hkeep.
      { intros w' Heq. unfold RateLimiter.Tally in *. by rewrite Heq. }
      assert (forall r w',
                JsMap.get K (map w') = JsMap.get K (map (RateLimiter.store rl)) ->
                r <> Some true \/ c' <> c ->
                let '(rs, rl') := serve calls (RateLimiter.mkRateLimiter w' rpm) in
                Tally K (RateLimiter.requestsPerMinute rl) W
                  (n + RateLimiter.allowed c ((c', r) :: rs)) (RateLimiter.store rl') /\
                RateLimiter.requestsPerMinute rl' = rpm) as Hrest.
      { intros r w' Heq _.
        destruct (IH (RateLimiter.mkRateLimiter w' rpm) n Hsafe HK Hwin (Hkeep w' Heq))
          as [HT' Hrpm].
        destruct (serve calls (RateLimiter.mkRateLimiter w' rpm)) as [rs rl'].
        cbn [fst snd] in *. split; [|done].
        unfold RateLimiter.allowed in *.
        rewrite filter_cons_False; [done|]. intros [= ? _]. done. }
      destruct (checkLimit c' n0 n1 n2 n3 rl) as [b w'|e w'].
      * specialize (Hrest (Some b) w' Hframe (or_intror Hne)).
        by destruct (serve calls (RateLimiter.mkRateLimiter w' rpm)) as [rs rl'].
      * specialize (Hrest None w' Hframe (or_intror Hne)).
        by destruct (serve calls (RateLimiter.mkRateLimiter w' rpm)) as [rs rl'].
Qed.

Lemma after_read_options key now w : options (after_read key now w) = options w.
Proof.
  unfold after_read. destruct (JsMap.get key (map w)) as [r|]; [|done].
  destruct (expiresAt r <=? now); [|done]. apply delete_options.
Qed.

Lemma get_options key now w : options (get key now w).2 = options w.
Proof.
  destruct (get_after_read key now w) as [-> | ->]; simpl; apply after_read_options.
Qed.

Lemma get_size key now w : JsMap.size (map (get key now w).2) <= JsMap.size (map w).
Proof.
  destruct (get_after_read key now w) as [-> | ->]; simpl; apply after_read_size.
Qed.

(** A request leaves the options of the store as they are; when it
    throws, the store was full. *)
Lemma checkLimit_options c n0 n1 n2 n3 rl :
  match checkLimit c n0 n1 n2 n3 rl with
  | Return _ w' => options w' = options (RateLimiter.store rl)
  | Throw _ w' =>
      options w' = options (RateLimiter.store rl) /\
      maxSize (options (RateLimiter.store rl)) <= JsMap.size (map (RateLimiter.store rl))
  end.
Proof.
  unfold RateLimiter.checkLimit. cbv zeta.
  set (key := window_key c n0). set (w := RateLimiter.store rl).
  pose proof (get_options key n1 w) as Hopt. pose proof (get_size key n1 w) as Hsize.
  destruct (RateLimiter.at_least _ _); [done|].
  match goal with |- context [set key ?tok (Some 60) n2 n3 ?w1] =>
    destruct (set_cases key tok (Some 60) n2 n3 w1) as [(_ & Hfull & ->)|[_ ->]] end.
  - split; [done|]. rewrite Hopt in Hfull. lia.
  - by rewrite options_log_if, scheduleExpiry_options.
Qed.

Lemma serve_options calls :
  forall rl, options (RateLimiter.store (serve calls rl).2) = options (RateLimiter.store rl).
Proof.
  induction calls as [|[c n0 n1 n2 n3] calls IH]; intros rl; [done|].
  cbn [RateLimiter.serve RateLimiter.client RateLimiter.at0 RateLimiter.at1
         RateLimiter.at2 RateLimiter.at3].
  pose proof (checkLimit_options c n0 n1 n2 n3 rl) as Hstep.
  destruct (checkLimit c n0 n1 n2 n3 rl) as [b w'|e w'].
  - specialize (IH (RateLimiter.mkRateLimiter w' (RateLimiter.requestsPerMinute rl))).
    destruct (serve calls _) as [rs rl']. simpl in *. by rewrite IH.
  - destruct Hstep as [Hstep _].
    specialize (IH (RateLimiter.mkRateLimiter w' (RateLimiter.requestsPerMinute rl))).
    destruct (serve calls _) as [rs rl']. simpl in *. by rewrite IH.
Qed.

Lemma Tally_nonneg K rpm W n w : Tally K rpm W n w -> 0 <= n.
Proof.
  unfold RateLimiter.Tally. destruct (JsMap.get K (map w)); [|lia]. intros (_ & ? & _). lia.
Qed.

Lemma Tally_new K rpm W : Tally K (nullish rpm 60) W 0 (RateLimiter.store (RateLimiter.new rpm)).
Proof. done. Qed.




End rate_limit.

(** *** An instance of the builtins *)

Lemma parseInt10_toString10 (n : Z) :
  0 <= n <= MAX_SAFE_INTEGER ->
  RateLimiter.parseInt10 (RateLimiter.toString10 (Some n)) = Some n.
Proof.
  intros _. unfold RateLimiter.parseInt10, RateLimiter.toString10.
  rewrite NilZero.isi.
  - simpl. by rewrite DecimalZ.of_to.
  - destruct n as [|p|p]; simpl; [done| |done].
    intros [= Hp]. by apply (DecimalPos.Unsigned.to_uint_nonnil p).
  - destruct n as [|p|p]; simpl; [done|done|].
    intros [= Hp]. by apply (DecimalPos.Unsigned.to_uint_nonnil p).
Qed.

Lemma string_of_uint_nonempty (d : Decimal.uint) : NilZero.string_of_uint d <> "".
Proof. by destruct d. Qed.

Lemma toString10_nonempty (x : option Z) : RateLimiter.toString10 x <> "".
Proof.
  destruct x as [[|p|p]|]; simpl; [done| |done|done].
  apply string_of_uint_nonempty.
Qed.


